(** * The village delivery robot ([index.js]): graph, state, driver, strategy

    A shallow embedding of [buildGraph], [VillageState.move], [runRobot],
    [randomPick] and [randomRobot], and the properties of them that the
    specification states.

    Conventions of the embedding.
    - A JavaScript value that can stand where the program expects a location
      is either a string or [undefined] (the latter is what array
      destructuring and an out-of-range array read produce).
    - The graph is an object created with [Object.create(null)]: a finite map
      from property keys (strings) to arrays; it is a [gmap string _].
    - A call either completes normally or throws; [completion] records which.
    - Strings are sequences of 8-bit characters.  The separator ["-"] is one
      such character and never occurs inside a multi-byte character, so
      splitting on it agrees with JavaScript's [split]. *)

From Stdlib Require Import ZArith Floats Ascii String.
From stdpp Require Import gmap strings list fin_maps.

Local Open Scope string_scope.
Local Open Scope list_scope.

(** ** Values, keys and completions *)

Inductive value : Type :=
  | VStr (s : string)
  | VUndef.

#[global] Instance value_eq_dec : EqDecision value.
Proof. solve_decision. Defined.

(** [ToPropertyKey]: what [graph[v]] uses as the key. *)
Definition to_key (v : value) : string :=
  match v with
  | VStr s => s
  | VUndef => "undefined"
  end.

(** [a == b] on strings and [undefined]; [SameValueZero], which
    [Array.prototype.includes] uses, is the same relation on these values. *)
Definition loose_eq (a b : value) : bool :=
  match a, b with
  | VStr x, VStr y => String.eqb x y
  | VUndef, VUndef => true
  | _, _ => false
  end.

(** [a != b] *)
Definition loose_neq (a b : value) : bool := negb (loose_eq a b).

Inductive js_error : Type :=
  | TypeError.

Inductive completion (A : Type) : Type :=
  | Normal (a : A)
  | Throw (e : js_error).
Arguments Normal {A} a.
Arguments Throw {A} e.

(** ** [String.prototype.split] with a one-character separator *)

Fixpoint split (sep : ascii) (s : string) : list string :=
  match s with
  | EmptyString => [EmptyString]
  | String c rest =>
      if Ascii.eqb c sep then EmptyString :: split sep rest
      else match split sep rest with
           | [] => [String c EmptyString]
           | piece :: pieces => String c piece :: pieces
           end
  end.

(** Number of occurrences of the separator in a string. *)
Fixpoint count_sep (sep : ascii) (s : string) : nat :=
  match s with
  | EmptyString => 0
  | String c rest => (if Ascii.eqb c sep then 1 else 0) + count_sep sep rest
  end.

Definition dash : ascii := "-"%char.

(** The descriptor that joins two location names. *)
Definition descriptor (a b : string) : string := a +:+ String dash b.

(** ** [buildGraph] *)

Abbreviation graph := (gmap string (list value)).

(** [let [from, to] = pieces]: missing positions are [undefined], further
    positions are dropped. *)
Definition destructure2 (pieces : list string) : value * value :=
  match pieces with
  | [] => (VUndef, VUndef)
  | [a] => (VStr a, VUndef)
  | a :: b :: _ => (VStr a, VStr b)
  end.

Definition addEdge (g : graph) (from to : value) : graph :=
  match g !! to_key from with
  | None => <[to_key from := [to]]> g
  | Some l => <[to_key from := l ++ [to]]> g
  end.

(** One iteration of the [for ... of] loop. *)
Definition add_road (g : graph) (r : string) : graph :=
  let '(from, to) := destructure2 (split dash r) in
  addEdge (addEdge g from to) to from.

Definition build_loop (edges : list string) (g : graph) : graph :=
  fold_left add_road edges g.

Definition buildGraph (edges : list string) : completion graph :=
  Normal (build_loop edges ∅).

Definition roads : list string :=
  [ "Alice's House-Bob's House";   "Alice's House-Cabin";
    "Alice's House-Post Office";   "Bob's House-Town Hall";
    "Daria's House-Ernie's House"; "Daria's House-Town Hall";
    "Ernie's House-Grete's House"; "Grete's House-Farm";
    "Grete's House-Shop";          "Marketplace-Farm";
    "Marketplace-Post Office";     "Marketplace-Shop";
    "Marketplace-Town Hall";       "Shop-Town Hall" ].

Definition roadGraph : graph := build_loop roads ∅.

(** The neighbour list of a key, read as empty when the key has no entry.
    Only used to state properties; the program never reads the graph so. *)
Definition neighbours (g : graph) (k : string) : list value :=
  default [] (g !! k).

(** What one descriptor appends to the neighbour list of key [k]. *)
Definition contribution (k : string) (r : string) : list value :=
  let '(from, to) := destructure2 (split dash r) in
  (if decide (k = to_key from) then [to] else [])
  ++ (if decide (k = to_key to) then [from] else []).

(** ** [VillageState] *)

Record parcel : Type := mkParcel {
  parcel_place : value;
  address : value
}.

Record VillageState : Type := mkVillageState {
  place : value;
  parcels : list parcel
}.

(** [array.includes(x)] *)
Definition includes (l : list value) (x : value) : bool :=
  existsb (loose_eq x) l.

(** The callback of [map] in [move]. *)
Definition carry (here destination : value) (p : parcel) : parcel :=
  if loose_neq (parcel_place p) here then p
  else {| parcel_place := destination; address := address p |}.

(** The callback of [filter] in [move]. *)
Definition undelivered (p : parcel) : bool :=
  loose_neq (parcel_place p) (address p).

Definition move (roadGraph : graph) (this : VillageState) (destination : value)
  : completion VillageState :=
  match roadGraph !! to_key (place this) with
  | None => Throw TypeError
  | Some adjacent =>
      if negb (includes adjacent destination) then Normal this
      else
        let parcels :=
          List.filter undelivered
            (List.map (carry (place this) destination) (parcels this)) in
        Normal (mkVillageState destination parcels)
  end.

Definition first : VillageState :=
  mkVillageState (VStr "Post Office")
    [ {| parcel_place := VStr "Post Office"; address := VStr "Alice's House" |} ].

(** The states a sequence of [move] calls leads to from [s0]. *)
Inductive reachable (g : graph) (s0 : VillageState) : VillageState → Prop :=
  | reachable_start : reachable g s0 s0
  | reachable_move s d s' :
      reachable g s0 s → move g s d = Normal s' → reachable g s0 s'.

(** ** The parcel sequence after a legal move, in the specification's words *)

(** (a) every parcel at the robot's place goes to the destination, the
    others are left as they are; *)
Fixpoint relocate (here destination : value) (ps : list parcel) : list parcel :=
  match ps with
  | [] => []
  | p :: rest =>
      (if decide (parcel_place p = here)
       then {| parcel_place := destination; address := address p |}
       else p)
      :: relocate here destination rest
  end.

(** (b) then every parcel whose place is its address is dropped. *)
Fixpoint drop_delivered (ps : list parcel) : list parcel :=
  match ps with
  | [] => []
  | p :: rest =>
      if decide (parcel_place p = address p) then drop_delivered rest
      else p :: drop_delivered rest
  end.

(** What becomes of one parcel in a legal move: it is dropped ([None]) or it
    is kept, carried along or not. *)
Definition fate (here destination : value) (p : parcel) : option parcel :=
  if decide (parcel_place p = here) then
    if decide (address p = destination) then None
    else Some {| parcel_place := destination; address := address p |}
  else
    if decide (parcel_place p = address p) then None else Some p.

(** ** Edge lists as the specification describes them *)

Definition well_formed (r : string) : Prop := length (split dash r) = 2.

(** The descriptor [r] is the road between [a] and [b], written either way. *)
Definition joins (a b r : string) : bool :=
  String.eqb r (descriptor a b) || String.eqb r (descriptor b a).

(** ** [runRobot] *)

Record action (M : Type) : Type := mkAction {
  direction : value;
  memory : option M   (* [None] is [undefined] *)
}.
Arguments mkAction {M} direction memory.
Arguments direction {M} a.
Arguments memory {M} a.

(** What a run does that can be seen from outside: it calls the strategy and
    it prints lines. *)
Inductive event (M : Type) : Type :=
  | Called (state : VillageState) (memory : option M)
  | Moved (direction : value)              (* [Moved to ${direction}] *)
  | Done (turn : nat).                     (* [Done in ${turn} turns] *)
Arguments Called {M} state memory.
Arguments Moved {M} direction.
Arguments Done {M} turn.

Section Driver.
Context {M W : Type}.

(** A strategy is called with the state and the memory; whatever else it
    reads or changes (a random number generator, say) is the world [W]. *)
Definition strategy : Type :=
  VillageState → option M → W → completion (action M * W).

(** The loop of [runRobot], [fuel] iterations of it at most.  [turn] is a
    JavaScript number; it counts exactly as long as it is below 2^53, and
    is a natural number here. *)
Fixpoint run_loop (roadGraph : graph) (robot : strategy) (fuel turn : nat)
    (state : VillageState) (mem : option M) (w : W)
    (trace : list (event M)) : option (list (event M) * completion W) :=
  match fuel with
  | 0 => None
  | S fuel =>
      if Nat.eqb (length (parcels state)) 0 then
        Some (trace ++ [Done turn], Normal w)
      else
        match robot state mem w with
        | Throw e => Some (trace ++ [Called state mem], Throw e)
        | Normal (action, w) =>
            match move roadGraph state (direction action) with
            | Throw e => Some (trace ++ [Called state mem], Throw e)
            | Normal state' =>
                run_loop roadGraph robot fuel (S turn) state'
                  (memory action) w
                  (trace ++ [Called state mem; Moved (direction action)])
            end
        end
  end.

Definition runRobot (roadGraph : graph) (fuel : nat) (state : VillageState)
    (robot : strategy) (memory : option M) (w : W)
  : option (list (event M) * completion W) :=
  run_loop roadGraph robot fuel 0 state memory w [].
End Driver.

Definition is_called {M} (ev : event M) : bool :=
  match ev with Called _ _ => true | _ => false end.

Definition is_moved {M} (ev : event M) : bool :=
  match ev with Moved _ => true | _ => false end.

(** Number of times the strategy was called in a trace. *)
Definition invocations {M} (t : list (event M)) : nat :=
  length (List.filter is_called t).

(** Number of loop iterations completed in a trace: each ends by printing its
    move. *)
Definition moves_taken {M} (t : list (event M)) : nat :=
  length (List.filter is_moved t).

(** The turns of a run, one after the other: [session g robot s m w t s' m' w']
    says that from the state [s], the memory [m] and the world [w], the
    turns that print [t] lead to [s'], [m'] and [w'].  A turn is taken only
    while there are parcels; the state, the memory and the world of a turn
    are those the turn before has left. *)
Inductive session {M W : Type} (g : graph) (robot : @strategy M W)
  : VillageState → option M → W → list (event M)
    → VillageState → option M → W → Prop :=
  | session_end s m w : session g robot s m w [] s m w
  | session_turn s m w a w1 s1 t s' m' w' :
      parcels s ≠ [] →
      robot s m w = Normal (a, w1) →
      move g s (direction a) = Normal s1 →
      session g robot s1 (memory a) w1 t s' m' w' →
      session g robot s m w (Called s m :: Moved (direction a) :: t) s' m' w'.

(** ** [randomPick] and [randomRobot] *)

(** The numbers that [Math.random()] is going to return, in order. *)
Definition entropy : Type := nat → float.

Definition Math_random (e : entropy) : float * entropy :=
  (e 0, λ n, e (S n)).

(** [array.length] as a number; an array has fewer than 2^32 elements. *)
Definition to_number (n : nat) : float :=
  PrimFloat.of_uint63 (Uint63.of_Z (Z.of_nat n)).

(** [Math.floor(x)] as an array index, when it is one. *)
Definition floor_index (x : float) : option nat :=
  match Prim2SF x with
  | S754_zero _ => Some 0
  | S754_finite false m e =>
      Some (Z.to_nat (if (0 <=? e)%Z then Z.shiftl (Z.pos m) e
                      else Z.shiftr (Z.pos m) (- e)))
  | _ => None
  end.

(** [array[choice]]: [undefined] outside the array. *)
Definition element (array : list value) (choice : option nat) : value :=
  match choice with
  | Some i => default VUndef (array !! i)
  | None => VUndef
  end.

(** [array] is [None] when the caller passes [undefined]. *)
Definition randomPick (array : option (list value)) (e : entropy)
  : completion (value * entropy) :=
  let '(r, e) := Math_random e in
  match array with
  | None => Throw TypeError
  | Some array =>
      let choice := floor_index (PrimFloat.mul r (to_number (length array))) in
      Normal (element array choice, e)
  end.

Definition randomRobot {M : Type} (roadGraph : graph)
  : @strategy M entropy :=
  λ state _ e,
    match randomPick (roadGraph !! to_key (place state)) e with
    | Throw err => Throw err
    | Normal (d, e) => Normal ({| direction := d; memory := None |}, e)
    end.

(** The action of a call, whatever it did to the world. *)
Definition action_of {M W : Type} (c : completion (action M * W))
  : completion (action M) :=
  match c with
  | Normal (a, _) => Normal a
  | Throw e => Throw e
  end.

(** What [buildGraph] makes of one descriptor, whatever its form, told for
    the neighbour list of the key [k]: only the first two components of the
    descriptor count.  A descriptor [a], without separator, appends
    [undefined] to the list of [a] and [a] to the list of the key
    ["undefined"]; a descriptor with the components [a], [b] and possibly
    more appends [b] to the list of [a] and [a] to the list of [b]; nothing
    else is appended. *)
Definition read_descriptor (k : string) (r : string) : list value :=
  match split dash r with
  | [] => []
  | [a] =>
      (if decide (k = a) then [VUndef] else [])
      ++ (if decide (k = "undefined") then [VStr a] else [])
  | a :: b :: _ =>
      (if decide (k = a) then [VStr b] else [])
      ++ (if decide (k = b) then [VStr a] else [])
  end.

(** The two property keys that one descriptor touches. *)
Definition ends (r : string) : list string :=
  let '(from, to) := destructure2 (split dash r) in
  [to_key from; to_key to].

(** No entry of a graph under construction is an empty list. *)
Definition entries_nonempty (g : graph) : Prop :=
  ∀ k l, g !! k = Some l → l ≠ [].

(** ** Reading a run *)

(** The directions of the moves printed in a trace, in order. *)
Fixpoint directions {M} (t : list (event M)) : list value :=
  match t with
  | [] => []
  | Moved d :: rest => d :: directions rest
  | _ :: rest => directions rest
  end.

(** [state.move(d1).move(d2)...]: the moves of a list of directions, one
    after the other. *)
Fixpoint travel (g : graph) (s : VillageState) (ds : list value)
  : completion VillageState :=
  match ds with
  | [] => Normal s
  | d :: rest =>
      match move g s d with
      | Normal s' => travel g s' rest
      | Throw e => Throw e
      end
  end.

(** * Properties *)

Lemma loose_eq_true a b : loose_eq a b = true ↔ a = b.
Proof.
  destruct a as [x|], b as [y|]; simpl; try (split; congruence).
  rewrite String.eqb_eq. split; congruence.
Qed.

Lemma loose_neq_true a b : loose_neq a b = true ↔ a ≠ b.
Proof.
  unfold loose_neq. rewrite negb_true_iff, <- not_true_iff_false, loose_eq_true.
  reflexivity.
Qed.

Lemma includes_true l x : includes l x = true ↔ x ∈ l.
Proof.
  unfold includes. rewrite existsb_exists. split.
  - intros (y & Hy & He). apply loose_eq_true in He. subst y.
    by apply list_elem_of_In.
  - intros H. exists x. split; [by apply list_elem_of_In | by apply loose_eq_true].
Qed.

Example next_example :
  move roadGraph first (VStr "Alice's House")
  = Normal (mkVillageState (VStr "Alice's House") []).
Proof. vm_compute. reflexivity. Qed.

(** ** Splitting *)

Section Split.
Variable sep : ascii.

Lemma split_not_nil s : split sep s ≠ [].
Proof.
  destruct s as [|c s]; simpl; [done|].
  destruct (Ascii.eqb c sep); [done|]. by destruct (split sep s).
Qed.

Lemma split_length s : length (split sep s) = S (count_sep sep s).
Proof.
  induction s as [|c s IH]; simpl; [done|].
  destruct (Ascii.eqb c sep); simpl; [by rewrite IH|].
  destruct (split sep s) eqn:E; simpl in *; [done | lia].
Qed.

Lemma split_free s : count_sep sep s = 0 → split sep s = [s].
Proof.
  induction s as [|c s IH]; simpl; [done|].
  destruct (Ascii.eqb c sep); simpl; [done|].
  intros H. by rewrite (IH H).
Qed.

Lemma split_app_sep a b :
  count_sep sep a = 0 → split sep (a +:+ String sep b) = a :: split sep b.
Proof.
  induction a as [|c a IH]; simpl.
  - intros _. by rewrite Ascii.eqb_refl.
  - destruct (Ascii.eqb c sep); simpl; [done|].
    intros H. by rewrite (IH H).
Qed.

Lemma count_sep_app a b :
  count_sep sep (a +:+ b) = count_sep sep a + count_sep sep b.
Proof. induction a as [|c a IH]; simpl; [done|]. rewrite IH. lia. Qed.

(** Joining the pieces with the separator gives the string back. *)
Lemma concat_split s : String.concat (String sep EmptyString) (split sep s) = s.
Proof.
  induction s as [|c s IH]; simpl; [done|].
  destruct (Ascii.eqb_spec c sep) as [->|Hne].
  - pose proof (split_not_nil s) as Hn.
    destruct (split sep s) as [|p ps] eqn:E; [done|].
    simpl in *. by rewrite IH.
  - destruct (split sep s) as [|p ps] eqn:E; [by destruct (split_not_nil s)|].
    simpl in *. destruct ps; simpl in *; by rewrite <- IH.
Qed.
End Split.

Lemma split_descriptor a b :
  count_sep dash a = 0 → count_sep dash b = 0 →
  split dash (descriptor a b) = [a; b].
Proof.
  intros Ha Hb. unfold descriptor.
  by rewrite split_app_sep, (split_free _ b).
Qed.

Lemma split_two_descriptor r a b :
  split dash r = [a; b] → r = descriptor a b.
Proof.
  intros H. rewrite <- (concat_split dash r), H. reflexivity.
Qed.

(** A descriptor with exactly two components is the join of two names
    without separator, and of no other two names. *)
Lemma descriptor_two_pieces a b :
  length (split dash (descriptor a b)) = 2 →
  count_sep dash a = 0 ∧ count_sep dash b = 0.
Proof.
  rewrite split_length. unfold descriptor. rewrite count_sep_app. simpl.
  change (Ascii.eqb dash dash) with true. lia.
Qed.

(** ** The graph under construction *)

Lemma neighbours_elem (g : graph) k v :
  v ∈ neighbours g k → ∃ l, g !! k = Some l ∧ v ∈ l.
Proof.
  unfold neighbours. destruct (g !! k) as [l|]; simpl.
  - eauto.
  - intros H. by apply elem_of_nil in H.
Qed.

Lemma neighbours_addEdge (g : graph) from to k :
  neighbours (addEdge g from to) k
  = neighbours g k ++ (if decide (k = to_key from) then [to] else []).
Proof.
  unfold neighbours, addEdge.
  destruct (g !! to_key from) as [l|] eqn:E; case_decide as Hk; subst;
    rewrite ?lookup_insert_eq, ?E; simpl; try done;
    rewrite lookup_insert_ne by done; by rewrite app_nil_r.
Qed.

Lemma neighbours_add_road (g : graph) r k :
  neighbours (add_road g r) k = neighbours g k ++ contribution k r.
Proof.
  unfold add_road, contribution.
  destruct (destructure2 (split dash r)) as [from to].
  by rewrite !neighbours_addEdge, app_assoc.
Qed.

(** The neighbour list of a key after the loop: what it was before, followed
    by the contributions of the descriptors in input order. *)
Lemma neighbours_build_loop edges (g : graph) k :
  neighbours (build_loop edges g) k
  = neighbours g k ++ flat_map (contribution k) edges.
Proof.
  revert g. induction edges as [|r edges IH]; intros g; simpl.
  - by rewrite app_nil_r.
  - unfold build_loop in *. simpl. by rewrite IH, neighbours_add_road, app_assoc.
Qed.

Lemma neighbours_built edges k :
  neighbours (build_loop edges ∅) k = flat_map (contribution k) edges.
Proof. by rewrite neighbours_build_loop. Qed.

Lemma contribution_built edges r k v :
  r ∈ edges → v ∈ contribution k r → v ∈ neighbours (build_loop edges ∅) k.
Proof.
  intros Hr Hv. rewrite neighbours_built.
  apply list_elem_of_In, in_flat_map. exists r.
  split; by apply list_elem_of_In.
Qed.

(** ** Properties of [buildGraph] *)

(** C5. Symmetry: for every edge list and every descriptor "A-B" in it (two
    location names, which do not contain the separator, joined by it), the
    graph that [buildGraph] returns has an entry for [A] that contains [B]
    and an entry for [B] that contains [A]. *)
Theorem buildGraph_symmetric (edges : list string) (a b : string) :
  count_sep dash a = 0 → count_sep dash b = 0 →
  descriptor a b ∈ edges →
  ∃ g, buildGraph edges = Normal g
       ∧ (∃ la, g !! a = Some la ∧ VStr b ∈ la)
       ∧ (∃ lb, g !! b = Some lb ∧ VStr a ∈ lb).
Proof.
  intros Ha Hb Hin. exists (build_loop edges ∅). split; [reflexivity|].
  split; apply neighbours_elem, (contribution_built _ _ _ _ Hin);
    unfold contribution; rewrite (split_descriptor _ _ Ha Hb); simpl.
  - rewrite decide_True by done. apply list_elem_of_here.
  - rewrite (decide_True (P := b = b)) by done.
    apply elem_of_app. right. apply list_elem_of_here.
Qed.

Lemma buildGraph_symmetric_witness :
  descriptor "A" "B" ∈ ["A-B"; "B-C"]
  ∧ ∃ g, buildGraph ["A-B"; "B-C"] = Normal g
         ∧ (∃ la, g !! "A" = Some la ∧ VStr "B" ∈ la)
         ∧ (∃ lb, g !! "B" = Some lb ∧ VStr "A" ∈ lb).
Proof.
  split; [apply list_elem_of_here|].
  apply (buildGraph_symmetric ["A-B"; "B-C"] "A" "B");
    [reflexivity | reflexivity | apply list_elem_of_here].
Defined.

(** C4, as the specification states it, fails: this edge list has a
    descriptor with one component and one with three, and [buildGraph]
    returns a graph built from all three descriptors. *)
Lemma buildGraph_malformed_not_rejected :
  Exists (λ r, length (split dash r) ≠ 2) ["A-B"; "C"; "D-E-F"]
  ∧ ∃ g, buildGraph ["A-B"; "C"; "D-E-F"] = Normal g
         ∧ g !! "A" = Some [VStr "B"]
         ∧ g !! "B" = Some [VStr "A"]
         ∧ g !! "C" = Some [VUndef]
         ∧ g !! "undefined" = Some [VStr "C"]
         ∧ g !! "D" = Some [VStr "E"]
         ∧ g !! "E" = Some [VStr "D"]
         ∧ g !! "F" = None.
Proof.
  split.
  - apply Exists_cons_tl, Exists_cons_hd. vm_compute. discriminate.
  - eexists. split; [reflexivity|]. vm_compute. repeat split.
Qed.

Lemma well_formed_split r :
  well_formed r → ∃ x y, split dash r = [x; y].
Proof.
  unfold well_formed. destruct (split dash r) as [|x [|y [|z rest]]]; try done.
  eauto.
Qed.

(** Among well-formed descriptors, the one that joins [a] and [b] is the one
    whose two components are [a] and [b]. *)
Lemma split_two_eqb r x y a b :
  split dash r = [x; y] →
  String.eqb r (descriptor a b) = true ↔ x = a ∧ y = b.
Proof.
  intros Hs. rewrite String.eqb_eq. split.
  - intros ->.
    destruct (descriptor_two_pieces a b) as [Ha Hb]; [by rewrite Hs|].
    rewrite (split_descriptor _ _ Ha Hb) in Hs. by injection Hs.
  - intros [<- <-]. by apply split_two_descriptor.
Qed.

Lemma count_contribution r a b :
  well_formed r → a ≠ b →
  count_occ value_eq_dec (contribution a r) (VStr b)
  = if joins a b r then 1 else 0.
Proof.
  intros Hwf Hab. destruct (well_formed_split r Hwf) as (x & y & Hs).
  pose proof (split_two_eqb r x y a b Hs) as J1.
  pose proof (split_two_eqb r x y b a Hs) as J2.
  unfold joins, contribution. rewrite Hs. cbn [destructure2 to_key].
  rewrite count_occ_app.
  destruct (String.eqb r (descriptor a b)), (String.eqb r (descriptor b a));
    cbn [orb];
    destruct (decide (a = x)) as [<-|Hx], (decide (a = y)) as [<-|Hy];
    cbn [count_occ];
    repeat (destruct (value_eq_dec _ _) as [[= <-]|Hn]);
    try reflexivity; exfalso; intuition congruence.
Qed.

Lemma count_neighbours_built edges a b :
  Forall well_formed edges → a ≠ b →
  count_occ value_eq_dec (neighbours (build_loop edges ∅) a) (VStr b)
  = length (List.filter (joins a b) edges).
Proof.
  intros Hwf Hab. rewrite neighbours_built.
  induction Hwf as [|r edges Hr _ IH]; simpl; [done|].
  rewrite count_occ_app, IH, (count_contribution r a b Hr Hab).
  by destruct (joins a b r).
Qed.

Lemma joins_comm a b r : joins a b r = joins b a r.
Proof. unfold joins. apply orb_comm. Qed.

(** C9. Neighbour lists are appended to, never replaced or deduplicated: in
    an edge list of well-formed descriptors in which [k] descriptors join
    the two distinct locations [a] and [b] (in either order), [b] occurs [k]
    times in the neighbour list of [a] and [a] occurs [k] times in that of
    [b]. *)
Theorem buildGraph_duplicate_edges (edges : list string) (a b : string) :
  Forall well_formed edges → a ≠ b →
  ∃ g, buildGraph edges = Normal g
       ∧ count_occ value_eq_dec (neighbours g a) (VStr b)
         = length (List.filter (joins a b) edges)
       ∧ count_occ value_eq_dec (neighbours g b) (VStr a)
         = length (List.filter (joins a b) edges).
Proof.
  intros Hwf Hab. exists (build_loop edges ∅). split; [reflexivity|]. split.
  - by apply count_neighbours_built.
  - rewrite (List.filter_ext _ _ (joins_comm a b)).
    by apply count_neighbours_built.
Qed.

Lemma buildGraph_duplicate_edges_witness :
  Forall well_formed ["A-B"; "B-A"; "A-C"; "A-B"] ∧ "A" ≠ "B"
  ∧ ∃ g, buildGraph ["A-B"; "B-A"; "A-C"; "A-B"] = Normal g
         ∧ count_occ value_eq_dec (neighbours g "A") (VStr "B") = 3
         ∧ count_occ value_eq_dec (neighbours g "B") (VStr "A") = 3.
Proof.
  assert (Hwf : Forall well_formed ["A-B"; "B-A"; "A-C"; "A-B"])
    by (repeat constructor).
  assert (Hne : "A" ≠ "B") by discriminate.
  split; [exact Hwf|]. split; [exact Hne|].
  exact (buildGraph_duplicate_edges ["A-B"; "B-A"; "A-C"; "A-B"] "A" "B" Hwf Hne).
Defined.

(** ** Properties of [move] *)

Lemma undelivered_true p : undelivered p = true ↔ parcel_place p ≠ address p.
Proof. apply loose_neq_true. Qed.

Lemma carry_relocate here d ps :
  List.map (carry here d) ps = relocate here d ps.
Proof.
  induction ps as [|p ps IH]; simpl; [done|]. rewrite IH. f_equal.
  unfold carry. destruct (loose_neq (parcel_place p) here) eqn:E.
  - apply loose_neq_true in E. by rewrite decide_False.
  - apply not_true_iff_false in E. rewrite loose_neq_true in E.
    apply dec_stable in E. by rewrite decide_True.
Qed.

Lemma filter_drop_delivered ps :
  List.filter undelivered ps = drop_delivered ps.
Proof.
  induction ps as [|p ps IH]; simpl; [done|]. rewrite IH.
  destruct (undelivered p) eqn:E.
  - apply undelivered_true in E. by rewrite decide_False.
  - apply not_true_iff_false in E. rewrite undelivered_true in E.
    apply dec_stable in E. by rewrite decide_True.
Qed.

Lemma drop_relocate_fate here d ps :
  drop_delivered (relocate here d ps) = omap (fate here d) ps.
Proof.
  induction ps as [|p ps IH]; simpl; [done|]. rewrite IH. unfold fate.
  destruct (decide (parcel_place p = here)) as [Hp|Hp]; simpl.
  - destruct (decide (address p = d)) as [Ha|Ha].
    + by rewrite decide_True.
    + by rewrite decide_False.
  - by destruct (decide (parcel_place p = address p)).
Qed.

(** The two branches of [move], by the legality of the destination. *)
Lemma move_illegal g s d adjacent :
  g !! to_key (place s) = Some adjacent → d ∉ adjacent →
  move g s d = Normal s.
Proof.
  intros Hg Hd. unfold move. rewrite Hg.
  destruct (includes adjacent d) eqn:E; [|done].
  by apply includes_true in E.
Qed.

Lemma move_legal g s d adjacent :
  g !! to_key (place s) = Some adjacent → d ∈ adjacent →
  move g s d
  = Normal (mkVillageState d
              (List.filter undelivered
                 (List.map (carry (place s) d) (parcels s)))).
Proof.
  intros Hg Hd. unfold move. rewrite Hg.
  apply includes_true in Hd. by rewrite Hd.
Qed.

(** What a call of [move] that returns can have returned. *)
Lemma move_inv g s d s' :
  move g s d = Normal s' →
  s' = s
  ∨ s' = mkVillageState d
           (List.filter undelivered (List.map (carry (place s) d) (parcels s))).
Proof.
  unfold move. destruct (g !! to_key (place s)); [|done].
  destruct (includes l d); simpl; intros [= <-]; auto.
Qed.

(** C1. When the place of [s] has an entry in the graph and [d] is not in
    it, [move] returns [s] itself: every field is as it was, and nothing is
    thrown. *)
Theorem move_illegal_returns_state (g : graph) (s : VillageState) (d : value)
    (adjacent : list value) :
  g !! to_key (place s) = Some adjacent → d ∉ adjacent →
  move g s d = Normal s.
Proof. apply move_illegal. Qed.

Lemma move_illegal_returns_state_witness :
  let g := build_loop ["A-B"; "B-C"] ∅ in
  let s := mkVillageState (VStr "A") [mkParcel (VStr "A") (VStr "B")] in
  g !! "A" = Some [VStr "B"] ∧ (VStr "C" ∉ [VStr "B"])
  ∧ move g s (VStr "C") = Normal s.
Proof.
  intros g s.
  assert (Hg : g !! to_key (place s) = Some [VStr "B"]) by (vm_compute; reflexivity).
  assert (Hd : VStr "C" ∉ [VStr "B"]).
  { intros H. apply includes_true in H. vm_compute in H. discriminate H. }
  split; [exact Hg|]. split; [exact Hd|].
  exact (move_illegal_returns_state g s (VStr "C") [VStr "B"] Hg Hd).
Defined.

(** C2. When [d] is in the neighbour list of the place of [s], [move]
    returns a new state at [d].  Its parcels are those of [s] after (a) every
    parcel at the place of [s] has been put at [d], the others being left as
    they are, and then (b) every parcel whose place is its address has been
    dropped.  Parcel by parcel ([fate]): a parcel at the place of [s] is
    dropped if its address is [d] (delivered on arrival) and is carried to
    [d] otherwise; any other parcel is dropped if it already is at its
    address and is kept unchanged otherwise; there is no other parcel in the
    result, and none twice. *)
Theorem move_legal_parcels (g : graph) (s : VillageState) (d : value)
    (adjacent : list value) :
  g !! to_key (place s) = Some adjacent → d ∈ adjacent →
  ∃ s', move g s d = Normal s'
        ∧ place s' = d
        ∧ parcels s' = drop_delivered (relocate (place s) d (parcels s))
        ∧ parcels s' = omap (fate (place s) d) (parcels s).
Proof.
  intros Hg Hd. eexists. split; [by eapply move_legal|]. simpl.
  split; [done|].
  rewrite filter_drop_delivered, carry_relocate.
  split; [done | apply drop_relocate_fate].
Qed.

Lemma move_legal_parcels_witness :
  let g := build_loop ["A-B"; "B-C"] ∅ in
  let s := mkVillageState (VStr "A")
             [ mkParcel (VStr "A") (VStr "B"); mkParcel (VStr "C") (VStr "A");
               mkParcel (VStr "A") (VStr "C") ] in
  g !! "A" = Some [VStr "B"] ∧ VStr "B" ∈ [VStr "B"]
  ∧ ∃ s', move g s (VStr "B") = Normal s'
          ∧ place s' = VStr "B"
          ∧ parcels s' = [mkParcel (VStr "C") (VStr "A"); mkParcel (VStr "B") (VStr "C")]
          ∧ parcels s' = omap (fate (VStr "A") (VStr "B")) (parcels s).
Proof.
  intros g s.
  assert (Hg : g !! to_key (place s) = Some [VStr "B"]) by (vm_compute; reflexivity).
  assert (Hd : VStr "B" ∈ [VStr "B"]) by apply list_elem_of_here.
  split; [exact Hg|]. split; [exact Hd|].
  exact (move_legal_parcels g s (VStr "B") [VStr "B"] Hg Hd).
Defined.

(** C3, as the code has it.  [move] reads [roadGraph[this.place]] without a
    check: when the place of [s] has no entry in the graph, the call of
    [includes] on [undefined] throws a [TypeError], whatever the destination,
    and no state is returned. *)
Theorem move_unknown_place_throws (g : graph) (s : VillageState) (d : value) :
  g !! to_key (place s) = None → move g s d = Throw TypeError.
Proof. intros Hg. unfold move. by rewrite Hg. Qed.

Lemma move_unknown_place_throws_witness :
  roadGraph !! "Nowhere" = None
  ∧ move roadGraph (mkVillageState (VStr "Nowhere") []) (VStr "Shop")
    = Throw TypeError.
Proof.
  assert (Hg : roadGraph !! to_key (place (mkVillageState (VStr "Nowhere") []))
               = None) by (vm_compute; reflexivity).
  split; [exact Hg|].
  exact (move_unknown_place_throws roadGraph _ (VStr "Shop") Hg).
Defined.

(** C3, as the specification states it, fails: in the graph of ["A-B"] and
    ["B-C"] the location ["Z"] has no entry, and [move] from there does not
    return the state but throws. *)
Lemma move_unknown_place_not_noop :
  let g := build_loop ["A-B"; "B-C"] ∅ in
  let s := mkVillageState (VStr "Z") [mkParcel (VStr "Z") (VStr "A")] in
  g !! "Z" = None
  ∧ move g s (VStr "A") = Throw TypeError
  ∧ move g s (VStr "A") ≠ Normal s.
Proof. vm_compute. repeat split. discriminate. Qed.

(** A state without delivered parcels. *)
Lemma filter_undelivered_Forall ps :
  Forall (λ p, parcel_place p ≠ address p) (List.filter undelivered ps).
Proof.
  apply List.Forall_forall. intros p Hp.
  apply filter_In in Hp as [_ Hp]. by apply undelivered_true.
Qed.

(** C8. From a state in which no parcel is at its address, no sequence of
    [move] calls leads to a state in which a parcel is at its address: the
    move that brings a parcel to its address also removes it. *)
Theorem reachable_no_delivered_parcel (g : graph) (s0 s : VillageState) :
  Forall (λ p, parcel_place p ≠ address p) (parcels s0) →
  reachable g s0 s →
  Forall (λ p, parcel_place p ≠ address p) (parcels s).
Proof.
  intros H0 Hr. induction Hr as [|s d s' _ IH Hm]; [done|].
  destruct (move_inv _ _ _ _ Hm) as [->| ->]; [done|].
  apply filter_undelivered_Forall.
Qed.

Lemma reachable_no_delivered_parcel_witness :
  let s0 := mkVillageState (VStr "Post Office")
              [ mkParcel (VStr "Post Office") (VStr "Alice's House");
                mkParcel (VStr "Post Office") (VStr "Cabin");
                mkParcel (VStr "Shop") (VStr "Post Office") ] in
  let s2 := mkVillageState (VStr "Cabin")
              [ mkParcel (VStr "Shop") (VStr "Post Office") ] in
  Forall (λ p, parcel_place p ≠ address p) (parcels s0)
  ∧ reachable roadGraph s0 s2
  ∧ Forall (λ p, parcel_place p ≠ address p) (parcels s2).
Proof.
  intros s0 s2.
  assert (H0 : Forall (λ p, parcel_place p ≠ address p) (parcels s0))
    by (repeat constructor; discriminate).
  assert (Hr : reachable roadGraph s0 s2).
  { eapply (reachable_move _ _ _ (VStr "Cabin")).
    - eapply (reachable_move _ _ _ (VStr "Alice's House")).
      + apply reachable_start.
      + vm_compute. reflexivity.
    - vm_compute. reflexivity. }
  split; [exact H0|]. split; [exact Hr|].
  exact (reachable_no_delivered_parcel roadGraph s0 s2 H0 Hr).
Defined.

Lemma filter_sublist {A} (f : A → bool) (l : list A) :
  List.filter f l `sublist_of` l.
Proof.
  induction l as [|x l IH]; simpl; [constructor|].
  destruct (f x); by constructor.
Qed.

Lemma filter_map_swap {A B} (f : A → B) (q : B → bool) (l : list A) :
  List.filter q (List.map f l) = List.map f (List.filter (λ x, q (f x)) l).
Proof.
  induction l as [|x l IH]; simpl; [done|].
  destruct (q (f x)); simpl; by rewrite IH.
Qed.

(** C10. A legal move keeps the parcels in order: the parcels of the new
    state are the images (carried to [d] or left alone) of a subsequence
    [kept] of the parcels of [s], in the order of [s]; the parcels that are
    not in [kept] are the delivered ones, removed where they stood. *)
Theorem move_keeps_order (g : graph) (s : VillageState) (d : value)
    (adjacent : list value) :
  g !! to_key (place s) = Some adjacent → d ∈ adjacent →
  ∃ s' kept,
    move g s d = Normal s'
    ∧ kept `sublist_of` parcels s
    ∧ parcels s' = List.map (carry (place s) d) kept
    ∧ (∀ p, p ∈ parcels s → p ∈ kept ↔ undelivered (carry (place s) d p) = true).
Proof.
  intros Hg Hd.
  exists (mkVillageState d
            (List.filter undelivered (List.map (carry (place s) d) (parcels s)))).
  exists (List.filter (λ p, undelivered (carry (place s) d p)) (parcels s)).
  split; [by eapply move_legal|]. split; [apply filter_sublist|].
  split; [apply filter_map_swap|].
  intros p Hp. rewrite list_elem_of_In, filter_In, <- list_elem_of_In.
  tauto.
Qed.

Lemma move_keeps_order_witness :
  let g := build_loop ["A-B"; "B-C"] ∅ in
  let s := mkVillageState (VStr "A")
             [ mkParcel (VStr "A") (VStr "C"); mkParcel (VStr "A") (VStr "B");
               mkParcel (VStr "C") (VStr "A") ] in
  g !! "A" = Some [VStr "B"] ∧ VStr "B" ∈ [VStr "B"]
  ∧ ∃ s' kept,
      move g s (VStr "B") = Normal s'
      ∧ kept `sublist_of` parcels s
      ∧ parcels s' = List.map (carry (VStr "A") (VStr "B")) kept
      ∧ (∀ p, p ∈ parcels s →
              p ∈ kept ↔ undelivered (carry (VStr "A") (VStr "B") p) = true).
Proof.
  intros g s.
  assert (Hg : g !! to_key (place s) = Some [VStr "B"]) by (vm_compute; reflexivity).
  assert (Hd : VStr "B" ∈ [VStr "B"]) by apply list_elem_of_here.
  split; [exact Hg|]. split; [exact Hd|].
  exact (move_keeps_order g s (VStr "B") [VStr "B"] Hg Hd).
Defined.

(** ** Properties of [runRobot] *)

Lemma invocations_app {M} (t u : list (event M)) :
  invocations (t ++ u) = invocations t + invocations u.
Proof. unfold invocations. by rewrite List.filter_app, length_app. Qed.

Lemma moves_taken_app {M} (t u : list (event M)) :
  moves_taken (t ++ u) = moves_taken t + moves_taken u.
Proof. unfold moves_taken. by rewrite List.filter_app, length_app. Qed.

(** A run that ends normally has printed, after what was there before, one
    strategy call and one move line per iteration, and then the turn. *)
Lemma run_loop_report {M W} (g : graph) (robot : @strategy M W) fuel :
  ∀ turn state mem w trace t w',
    run_loop g robot fuel turn state mem w trace = Some (t, Normal w') →
    ∃ body n,
      t = trace ++ body ++ [Done (turn + n)]
      ∧ moves_taken body = n ∧ invocations body = n
      ∧ Forall (λ ev, ∀ k, ev ≠ Done k) body.
Proof.
  induction fuel as [|fuel IH]; intros turn state mem w trace t w'; simpl; [done|].
  destruct (Nat.eqb (length (parcels state)) 0).
  - intros [= <- <-]. exists [], 0. rewrite Nat.add_0_r. by repeat split.
  - destruct (robot state mem w) as [[act w1]|e]; [|done].
    destruct (move g state (direction act)) as [state'|e]; [|done].
    intros Hrun. apply IH in Hrun as (body & n & -> & Hm & Hi & Hd).
    exists ([Called state mem; Moved (direction act)] ++ body), (S n).
    rewrite moves_taken_app, invocations_app, Hm, Hi, <- !app_assoc.
    repeat split.
    + do 3 f_equal. simpl. do 3 f_equal. lia.
    + by repeat constructor.
Qed.

(** ** Properties of [randomRobot] *)

(** C7, as the code has it.  [randomRobot] reads the place of the state and
    draws one number from [Math.random]; it looks at neither its memory nor
    the parcels.  Two calls at the same place that draw the same number
    return the same action, and the memory of that action is [undefined]. *)
Theorem randomRobot_place_and_draw {M : Type} (g : graph)
    (s1 s2 : VillageState) (m1 m2 : option M) (e1 e2 : entropy) :
  place s1 = place s2 → e1 0 = e2 0 →
  action_of (randomRobot g s1 m1 e1) = action_of (randomRobot g s2 m2 e2)
  ∧ ∀ a, action_of (randomRobot g s1 m1 e1) = Normal a → memory a = None.
Proof.
  intros Hp He. unfold randomRobot, randomPick, Math_random.
  rewrite Hp, He. destruct (g !! to_key (place s2)); simpl; [|done].
  split; [done|]. by intros a [= <-].
Qed.

Lemma randomRobot_place_and_draw_witness :
  let s1 := first in
  let s2 := mkVillageState (VStr "Post Office") [] in
  let e1 : entropy := λ n, if Nat.eqb n 0 then 0.5%float else 0.25%float in
  let e2 : entropy := λ _, 0.5%float in
  place s1 = place s2 ∧ e1 0 = e2 0
  ∧ action_of (randomRobot roadGraph s1 (Some 7) e1)
    = action_of (randomRobot roadGraph s2 None e2)
  ∧ ∀ a, action_of (randomRobot roadGraph s1 (Some 7) e1) = Normal a →
         memory a = None.
Proof.
  intros s1 s2 e1 e2.
  split; [reflexivity|]. split; [reflexivity|].
  exact (randomRobot_place_and_draw roadGraph s1 s2 (Some 7) None e1 e2
           eq_refl eq_refl).
Defined.

(** C7, as the specification states it, fails for [randomRobot]: called
    twice with the same state and the same memory, it goes to Alice's house
    when [Math.random] returns 0 and to the marketplace when it returns
    0.5. *)
Lemma randomRobot_not_a_function_of_state_and_memory :
  action_of (randomRobot (M := unit) roadGraph first None (λ _, 0%float))
  = Normal (mkAction (VStr "Alice's House") None)
  ∧ action_of (randomRobot (M := unit) roadGraph first None (λ _, 0.5%float))
    = Normal (mkAction (VStr "Marketplace") None)
  ∧ action_of (randomRobot (M := unit) roadGraph first None (λ _, 0%float))
    ≠ action_of (randomRobot (M := unit) roadGraph first None (λ _, 0.5%float)).
Proof. vm_compute. repeat split. discriminate. Qed.

(** * Further properties of the program *)

(** ** The graph that [buildGraph] returns *)

Lemma split_pieces_free sep s :
  Forall (λ p, count_sep sep p = 0) (split sep s).
Proof.
  induction s as [|c s IH]; simpl; [by repeat constructor|].
  destruct (Ascii.eqb c sep) eqn:E; [by constructor|].
  destruct (split sep s) as [|p ps]; [by repeat constructor; simpl; rewrite E|].
  inversion_clear IH as [|?? Hp Hps]. constructor; [|done].
  simpl. by rewrite E.
Qed.

(** [split] and joining with the separator are inverse to each other on the
    pieces: the pieces, joined again, are the string; there is one piece more
    than there are separators in the string, and no piece contains one. *)
Theorem split_pieces (sep : ascii) (s : string) :
  String.concat (String sep EmptyString) (split sep s) = s
  ∧ length (split sep s) = S (count_sep sep s)
  ∧ Forall (λ p, count_sep sep p = 0) (split sep s).
Proof.
  split; [apply concat_split|]. split; [apply split_length|].
  apply split_pieces_free.
Qed.

(** The values a descriptor puts into neighbour lists are its two ends. *)
Lemma contribution_ends k r v :
  v ∈ contribution k r →
  let '(from, to) := destructure2 (split dash r) in
  (k = to_key from ∧ v = to) ∨ (k = to_key to ∧ v = from).
Proof.
  unfold contribution. destruct (destructure2 (split dash r)) as [from to].
  rewrite elem_of_app. intros [H|H]; case_decide; try by apply elem_of_nil in H.
  - left. by apply list_elem_of_singleton in H.
  - right. by apply list_elem_of_singleton in H.
Qed.

Lemma contribution_nil_iff k r : contribution k r = [] ↔ k ∉ ends r.
Proof.
  unfold contribution, ends. destruct (destructure2 (split dash r)) as [from to].
  rewrite !not_elem_of_cons.
  destruct (decide (k = to_key from)), (decide (k = to_key to)); simpl;
    (split; [try done | by intros (? & ? & _)]).
  intros _. repeat split; try done. apply not_elem_of_nil.
Qed.

Lemma flat_map_nil_iff {A B} (f : A → list B) (l : list A) :
  flat_map f l = [] ↔ ∀ x, x ∈ l → f x = [].
Proof.
  induction l as [|x l IH]; simpl.
  - split; [|done]. intros _ y Hy. by apply elem_of_nil in Hy.
  - split.
    + intros [Hx Hl]%app_eq_nil y [->|Hy]%elem_of_cons; [done|].
      by apply IH.
    + intros H. rewrite (H x) by apply list_elem_of_here. simpl.
      apply IH. intros y Hy. apply H. by apply list_elem_of_further.
Qed.

Lemma flat_map_not_nil {A B} (f : A → list B) (l : list A) :
  flat_map f l ≠ [] → ∃ x, x ∈ l ∧ f x ≠ [].
Proof.
  induction l as [|x l IH]; simpl; [done|].
  destruct (f x) as [|y ys] eqn:E; simpl.
  - intros (z & Hz & Hf)%IH. exists z. split; [by apply list_elem_of_further|done].
  - intros _. exists x. split; [apply list_elem_of_here|]. by rewrite E.
Qed.

Lemma addEdge_entries_nonempty g from to :
  entries_nonempty g → entries_nonempty (addEdge g from to).
Proof.
  intros Hg k l. unfold addEdge.
  destruct (g !! to_key from) as [l0|] eqn:E;
    (destruct (decide (k = to_key from)) as [->|Hk];
     [rewrite lookup_insert_eq | rewrite lookup_insert_ne by done; apply Hg]).
  - intros [= <-]. by destruct l0.
  - by intros [= <-].
Qed.

Lemma build_loop_entries_nonempty edges g :
  entries_nonempty g → entries_nonempty (build_loop edges g).
Proof.
  revert g. induction edges as [|r edges IH]; intros g Hg; [done|].
  unfold build_loop. simpl. apply IH. unfold add_road.
  destruct (destructure2 (split dash r)) as [from to].
  by do 2 apply addEdge_entries_nonempty.
Qed.

Lemma built_entries_nonempty edges : entries_nonempty (build_loop edges ∅).
Proof. apply build_loop_entries_nonempty. intros k l H. by rewrite lookup_empty in H. Qed.

Lemma built_lookup_None edges k :
  build_loop edges ∅ !! k = None ↔ neighbours (build_loop edges ∅) k = [].
Proof.
  unfold neighbours. pose proof (built_entries_nonempty edges k) as Hne.
  destruct (build_loop edges ∅ !! k) as [l|]; simpl; [|done].
  split; [done|]. intros ->. by destruct (Hne [] eq_refl).
Qed.

Lemma built_lookup_Some edges k l :
  build_loop edges ∅ !! k = Some l → neighbours (build_loop edges ∅) k = l.
Proof. unfold neighbours. by intros ->. Qed.

(** The reading of a descriptor in the words above is what the loop does
    with it. *)
Lemma read_descriptor_contribution k r : read_descriptor k r = contribution k r.
Proof.
  unfold read_descriptor, contribution.
  pose proof (split_not_nil dash r) as Hne.
  by destruct (split dash r) as [|a [|b rest]].
Qed.

(** C4, as the code has it.  [buildGraph] does not check the descriptors and
    never fails: it returns a graph for every list of strings.  In that
    graph the neighbour list of every key is exactly what the descriptors,
    read one after the other and whatever their form, append to it: a
    descriptor with two or more components appends the second component to
    the list of the first and the first to the list of the second, and
    nothing for its further components, which are ignored; a descriptor [a]
    without separator appends [undefined] to the list of [a] and [a] to the
    list of the key ["undefined"].  A key has no entry exactly when nothing
    is appended to its list. *)
Theorem buildGraph_reads_any_descriptor (edges : list string) :
  ∃ g, buildGraph edges = Normal g
       ∧ ∀ k, neighbours g k = flat_map (read_descriptor k) edges
              ∧ (g !! k = None ↔ flat_map (read_descriptor k) edges = []).
Proof.
  exists (build_loop edges ∅). split; [reflexivity|]. intros k.
  rewrite (flat_map_ext _ _ (read_descriptor_contribution k)).
  rewrite built_lookup_None, neighbours_built. done.
Qed.

Lemma buildGraph_reads_any_descriptor_witness :
  ∃ g, buildGraph ["A-B"; "C"; "D-E-F"] = Normal g
       ∧ ∀ k, neighbours g k = flat_map (read_descriptor k) ["A-B"; "C"; "D-E-F"]
              ∧ (g !! k = None
                 ↔ flat_map (read_descriptor k) ["A-B"; "C"; "D-E-F"] = []).
Proof. exact (buildGraph_reads_any_descriptor ["A-B"; "C"; "D-E-F"]). Defined.

(** The neighbour list of a key holds, in the order of the edge list, the
    other end of every descriptor that has the key as an end (both ends, for
    a descriptor from a place to itself); a key has no entry exactly when no
    descriptor has it as an end. *)
Theorem buildGraph_neighbours_in_order (edges : list string) (k : string) :
  ∃ g, buildGraph edges = Normal g
       ∧ neighbours g k = flat_map (contribution k) edges
       ∧ (g !! k = None ↔ ∀ r, r ∈ edges → k ∉ ends r).
Proof.
  exists (build_loop edges ∅). split; [reflexivity|].
  split; [apply neighbours_built|].
  rewrite built_lookup_None, neighbours_built, flat_map_nil_iff.
  split; intros H r Hr; apply contribution_nil_iff; by apply H.
Qed.

Lemma buildGraph_neighbours_in_order_witness :
  ∃ g, buildGraph ["A-B"; "C-A"; "A-A"; "B-C"] = Normal g
       ∧ neighbours g "A" = [VStr "B"; VStr "C"; VStr "A"; VStr "A"]
       ∧ (g !! "A" = None ↔ ∀ r, r ∈ ["A-B"; "C-A"; "A-A"; "B-C"] → "A" ∉ ends r).
Proof. exact (buildGraph_neighbours_in_order ["A-B"; "C-A"; "A-A"; "B-C"] "A"). Defined.

(** Every entry of the graph is a non-empty list, and its key is an end of
    some descriptor of the edge list. *)
Theorem buildGraph_entries (edges : list string) (g : graph) (k : string)
    (l : list value) :
  buildGraph edges = Normal g → g !! k = Some l →
  l ≠ [] ∧ ∃ r, r ∈ edges ∧ k ∈ ends r.
Proof.
  intros [= <-] Hk. split; [by eapply built_entries_nonempty|].
  pose proof (built_entries_nonempty edges k l Hk) as Hne.
  rewrite <- (built_lookup_Some _ _ _ Hk), neighbours_built in Hne.
  apply flat_map_not_nil in Hne as (r & Hr & Hc). exists r. split; [done|].
  destruct (decide (k ∈ ends r)) as [|Hno]; [done|].
  by apply contribution_nil_iff in Hno.
Qed.

Lemma buildGraph_entries_witness :
  let g := build_loop ["A-B"; "B-C"] ∅ in
  buildGraph ["A-B"; "B-C"] = Normal g ∧ g !! "B" = Some [VStr "A"; VStr "C"]
  ∧ [VStr "A"; VStr "C"] ≠ [] ∧ ∃ r, r ∈ ["A-B"; "B-C"] ∧ "B" ∈ ends r.
Proof.
  intros g.
  assert (Hb : buildGraph ["A-B"; "B-C"] = Normal g) by reflexivity.
  assert (Hk : g !! "B" = Some [VStr "A"; VStr "C"]) by (vm_compute; reflexivity).
  split; [exact Hb|]. split; [exact Hk|].
  exact (buildGraph_entries ["A-B"; "B-C"] g "B" _ Hb Hk).
Defined.

(** Roads go both ways, key for key: a value in the neighbour list of [k]
    has an entry of its own, which holds a value whose key is [k]. *)
Lemma built_two_way edges k v :
  v ∈ neighbours (build_loop edges ∅) k →
  ∃ v', to_key v' = k ∧ v' ∈ neighbours (build_loop edges ∅) (to_key v).
Proof.
  rewrite neighbours_built. intros Hv.
  apply list_elem_of_In, in_flat_map in Hv as (r & Hr & Hv).
  apply list_elem_of_In in Hr, Hv.
  pose proof (contribution_ends k r v Hv) as Hends.
  destruct (destructure2 (split dash r)) as [from to] eqn:E.
  destruct Hends as [[-> ->]|[-> ->]].
  - exists from. split; [done|]. apply (contribution_built edges r _ _ Hr).
    unfold contribution. rewrite E.
    rewrite (decide_True (P := to_key to = to_key to)) by done.
    apply elem_of_app. right. apply list_elem_of_here.
  - exists to. split; [done|]. apply (contribution_built edges r _ _ Hr).
    unfold contribution. rewrite E.
    rewrite decide_True by done. apply elem_of_app. left. apply list_elem_of_here.
Qed.

(** With a separator in every descriptor, no neighbour list holds
    [undefined]. *)
Lemma built_no_undefined edges k :
  Forall (λ r, (1 ≤ count_sep dash r)%nat) edges →
  VUndef ∉ neighbours (build_loop edges ∅) k.
Proof.
  intros Hsep Hv. rewrite neighbours_built in Hv.
  apply list_elem_of_In, in_flat_map in Hv as (r & Hr & Hv).
  apply list_elem_of_In in Hv.
  rewrite List.Forall_forall in Hsep. specialize (Hsep r Hr).
  pose proof (contribution_ends k r VUndef Hv) as Hends.
  pose proof (split_length dash r) as Hlen.
  destruct (split dash r) as [|a [|b rest]]; simpl in *; try lia;
    by destruct Hends as [[_ ?]|[_ ?]].
Qed.

(** When every descriptor of the edge list contains the separator, the
    graph is symmetric as a whole: if [b] is in the neighbour list of [a],
    then [b] has an entry and [a] is in it. *)
Theorem buildGraph_two_way (edges : list string) (g : graph) (a b : string)
    (la : list value) :
  Forall (λ r, (1 ≤ count_sep dash r)%nat) edges →
  buildGraph edges = Normal g → g !! a = Some la → VStr b ∈ la →
  ∃ lb, g !! b = Some lb ∧ VStr a ∈ lb.
Proof.
  intros Hsep [= <-] Ha Hb. apply neighbours_elem.
  rewrite <- (built_lookup_Some _ _ _ Ha) in Hb.
  destruct (built_two_way edges a (VStr b) Hb) as ([a'|] & Hk & Hin);
    simpl in *; [by subst a'|].
  by destruct (built_no_undefined edges b Hsep).
Qed.

Lemma buildGraph_two_way_witness :
  let g := build_loop ["A-B"; "B-C-D"] ∅ in
  Forall (λ r, (1 ≤ count_sep dash r)%nat) ["A-B"; "B-C-D"]
  ∧ buildGraph ["A-B"; "B-C-D"] = Normal g
  ∧ g !! "C" = Some [VStr "B"] ∧ VStr "B" ∈ [VStr "B"]
  ∧ ∃ lb, g !! "B" = Some lb ∧ VStr "C" ∈ lb.
Proof.
  intros g.
  assert (Hsep : Forall (λ r, (1 ≤ count_sep dash r)%nat) ["A-B"; "B-C-D"])
    by (repeat constructor; vm_compute; lia).
  assert (Hb : buildGraph ["A-B"; "B-C-D"] = Normal g) by reflexivity.
  assert (Hc : g !! "C" = Some [VStr "B"]) by (vm_compute; reflexivity).
  assert (Hin : VStr "B" ∈ [VStr "B"]) by apply list_elem_of_here.
  split; [exact Hsep|]. split; [exact Hb|]. split; [exact Hc|].
  split; [exact Hin|].
  exact (buildGraph_two_way ["A-B"; "B-C-D"] g "C" "B" _ Hsep Hb Hc Hin).
Defined.

Lemma destructure2_free r :
  let '(from, to) := destructure2 (split dash r) in
  count_sep dash (to_key from) = 0 ∧ count_sep dash (to_key to) = 0.
Proof.
  pose proof (split_pieces_free dash r) as Hfree.
  destruct (split dash r) as [|a [|b rest]]; simpl; [done| |].
  - by inversion_clear Hfree.
  - inversion_clear Hfree as [|?? Ha Hrest]. by inversion_clear Hrest.
Qed.

(** No name in the graph contains the separator: neither the key of an
    entry nor a string in a neighbour list. *)
Theorem buildGraph_names_without_separator (edges : list string) (g : graph)
    (k : string) (l : list value) :
  buildGraph edges = Normal g → g !! k = Some l →
  count_sep dash k = 0 ∧ ∀ v, v ∈ l → count_sep dash (to_key v) = 0.
Proof.
  intros [= <-] Hk.
  assert (Hl : ∀ v, v ∈ l →
            count_sep dash k = 0 ∧ count_sep dash (to_key v) = 0).
  { intros v Hv. rewrite <- (built_lookup_Some _ _ _ Hk), neighbours_built in Hv.
    apply list_elem_of_In, in_flat_map in Hv as (r & _ & Hv).
    apply list_elem_of_In in Hv.
    pose proof (contribution_ends k r v Hv) as Hends.
    pose proof (destructure2_free r) as Hfree.
    destruct (destructure2 (split dash r)) as [from to].
    destruct Hfree as [Hf Ht]. by destruct Hends as [[-> ->]|[-> ->]]. }
  split; [|intros v Hv; by apply Hl].
  pose proof (built_entries_nonempty edges k l Hk) as Hne.
  destruct l as [|v l]; [done|]. apply (Hl v), list_elem_of_here.
Qed.

Lemma buildGraph_names_without_separator_witness :
  let g := build_loop ["A-B-C"; "D"] ∅ in
  buildGraph ["A-B-C"; "D"] = Normal g ∧ g !! "D" = Some [VUndef]
  ∧ count_sep dash "D" = 0 ∧ ∀ v, v ∈ [VUndef] → count_sep dash (to_key v) = 0.
Proof.
  intros g.
  assert (Hb : buildGraph ["A-B-C"; "D"] = Normal g) by reflexivity.
  assert (Hk : g !! "D" = Some [VUndef]) by (vm_compute; reflexivity).
  split; [exact Hb|]. split; [exact Hk|].
  exact (buildGraph_names_without_separator ["A-B-C"; "D"] g "D" _ Hb Hk).
Defined.

(** ** Moving in a graph that [buildGraph] returned *)

Lemma move_inv_legal g s d s' :
  move g s d = Normal s' →
  s' = s
  ∨ (d ∈ neighbours g (to_key (place s))
     ∧ s' = mkVillageState d
              (List.filter undelivered
                 (List.map (carry (place s) d) (parcels s)))).
Proof.
  unfold move, neighbours. destruct (g !! to_key (place s)) as [l|]; [|done].
  destruct (includes l d) eqn:E; simpl; intros [= <-]; [right|by left].
  split; [by apply includes_true|done].
Qed.

Lemma move_is_Some g s d :
  is_Some (g !! to_key (place s)) → ∃ s', move g s d = Normal s'.
Proof.
  intros [l Hl]. unfold move. rewrite Hl.
  destruct (negb (includes l d)); eauto.
Qed.

(** A neighbour in a built graph has an entry of its own. *)
Lemma built_neighbour_is_Some edges k v :
  v ∈ neighbours (build_loop edges ∅) k →
  is_Some (build_loop edges ∅ !! to_key v).
Proof.
  intros (v' & _ & Hv')%built_two_way.
  apply neighbours_elem in Hv' as (l & Hl & _). eauto.
Qed.

Lemma built_move_stays edges s d s' :
  is_Some (build_loop edges ∅ !! to_key (place s)) →
  move (build_loop edges ∅) s d = Normal s' →
  is_Some (build_loop edges ∅ !! to_key (place s')).
Proof.
  intros Hs [->|[Hd ->]]%move_inv_legal; [done|]. simpl.
  by eapply built_neighbour_is_Some.
Qed.

Lemma built_reachable_stays edges s0 s :
  is_Some (build_loop edges ∅ !! to_key (place s0)) →
  reachable (build_loop edges ∅) s0 s →
  is_Some (build_loop edges ∅ !! to_key (place s)).
Proof.
  intros H0 Hr. induction Hr as [|s d s' _ IH Hm]; [done|].
  by eapply built_move_stays.
Qed.

(** In a graph that [buildGraph] returned, for any edge list, a robot that
    starts at a place with an entry stays at places with an entry, whatever
    directions it is given, so no [move] on its way throws. *)
Theorem move_never_throws_from_inside (edges : list string) (g : graph)
    (s0 s : VillageState) (d : value) :
  buildGraph edges = Normal g →
  is_Some (g !! to_key (place s0)) → reachable g s0 s →
  ∃ s', move g s d = Normal s' ∧ is_Some (g !! to_key (place s')).
Proof.
  intros [= <-] H0 Hr.
  pose proof (built_reachable_stays edges s0 s H0 Hr) as Hs.
  destruct (move_is_Some _ s d Hs) as [s' Hm]. exists s'. split; [done|].
  by eapply built_move_stays.
Qed.

Lemma move_never_throws_from_inside_witness :
  let g := build_loop ["A-B"; "B-C"; "D"] ∅ in
  let s0 := mkVillageState (VStr "D") [mkParcel (VStr "D") (VStr "A")] in
  let s := mkVillageState VUndef [mkParcel VUndef (VStr "A")] in
  buildGraph ["A-B"; "B-C"; "D"] = Normal g
  ∧ is_Some (g !! to_key (place s0)) ∧ reachable g s0 s
  ∧ ∃ s', move g s (VStr "D") = Normal s' ∧ is_Some (g !! to_key (place s')).
Proof.
  intros g s0 s.
  assert (Hb : buildGraph ["A-B"; "B-C"; "D"] = Normal g) by reflexivity.
  assert (H0 : is_Some (g !! to_key (place s0)))
    by (exists [VUndef]; vm_compute; reflexivity).
  assert (Hr : reachable g s0 s).
  { eapply (reachable_move _ _ _ VUndef); [apply reachable_start|].
    vm_compute. reflexivity. }
  split; [exact Hb|]. split; [exact H0|]. split; [exact Hr|].
  exact (move_never_throws_from_inside _ g s0 s (VStr "D") Hb H0 Hr).
Defined.

(** ** What [move] does to the parcels along the way *)

Lemma carry_address here d p : address (carry here d p) = address p.
Proof. unfold carry. by destruct (loose_neq (parcel_place p) here). Qed.

Lemma moved_addresses here d ps :
  List.map address (List.filter undelivered (List.map (carry here d) ps))
  `sublist_of` List.map address ps.
Proof.
  induction ps as [|p ps IH]; simpl; [constructor|].
  destruct (undelivered (carry here d p)); simpl.
  - rewrite carry_address. by constructor.
  - by constructor.
Qed.

(** Along any sequence of moves, legal or not, the addresses of the parcels
    of the state are a subsequence of the addresses of the parcels at the
    start: no parcel appears, none changes its address, none overtakes
    another; in particular their number never grows. *)
Theorem reachable_addresses (g : graph) (s0 s : VillageState) :
  reachable g s0 s →
  List.map address (parcels s) `sublist_of` List.map address (parcels s0)
  ∧ (length (parcels s) ≤ length (parcels s0))%nat.
Proof.
  intros Hr.
  assert (Hsub : List.map address (parcels s)
                 `sublist_of` List.map address (parcels s0)).
  { induction Hr as [|s d s' _ IH Hm]; [done|].
    destruct (move_inv _ _ _ _ Hm) as [->| ->]; [done|]. simpl.
    etrans; [apply moved_addresses | done]. }
  split; [done|]. apply sublist_length in Hsub.
  by rewrite !length_map in Hsub.
Qed.

Lemma reachable_addresses_witness :
  let s0 := mkVillageState (VStr "Post Office")
              [ mkParcel (VStr "Post Office") (VStr "Alice's House");
                mkParcel (VStr "Post Office") (VStr "Cabin");
                mkParcel (VStr "Shop") (VStr "Post Office") ] in
  let s := mkVillageState (VStr "Alice's House")
             [ mkParcel (VStr "Alice's House") (VStr "Cabin");
               mkParcel (VStr "Shop") (VStr "Post Office") ] in
  reachable roadGraph s0 s
  ∧ List.map address (parcels s) `sublist_of` List.map address (parcels s0)
  ∧ (length (parcels s) ≤ length (parcels s0))%nat.
Proof.
  intros s0 s.
  assert (Hr : reachable roadGraph s0 s).
  { eapply (reachable_move _ _ _ (VStr "Alice's House")); [apply reachable_start|].
    vm_compute. reflexivity. }
  split; [exact Hr|]. exact (reachable_addresses roadGraph s0 s Hr).
Defined.

(** A legal move to another place leaves no parcel behind: in the new state
    no parcel is at the place the robot came from, and every parcel that is
    not at the new place is a parcel of the old state, untouched. *)
Theorem move_takes_all_parcels (g : graph) (s s' : VillageState) (d : value)
    (adjacent : list value) :
  g !! to_key (place s) = Some adjacent → d ∈ adjacent → d ≠ place s →
  move g s d = Normal s' →
  Forall (λ p, parcel_place p ≠ place s
               ∧ (parcel_place p ≠ d → p ∈ parcels s)) (parcels s').
Proof.
  intros Hg Hd Hne Hm. rewrite (move_legal g s d adjacent Hg Hd) in Hm.
  injection Hm as <-. simpl. apply List.Forall_forall. intros q Hq.
  apply filter_In in Hq as [Hq _]. apply in_map_iff in Hq as (p & <- & Hp).
  unfold carry. destruct (loose_neq (parcel_place p) (place s)) eqn:E; simpl.
  - apply loose_neq_true in E. split; [done|]. intros _. by apply list_elem_of_In.
  - split; [congruence | done].
Qed.

Lemma move_takes_all_parcels_witness :
  let g := build_loop ["A-B"; "B-C"] ∅ in
  let s := mkVillageState (VStr "A")
             [ mkParcel (VStr "A") (VStr "C"); mkParcel (VStr "C") (VStr "A") ] in
  let s' := mkVillageState (VStr "B")
              [ mkParcel (VStr "B") (VStr "C"); mkParcel (VStr "C") (VStr "A") ] in
  g !! "A" = Some [VStr "B"] ∧ VStr "B" ∈ [VStr "B"] ∧ VStr "B" ≠ VStr "A"
  ∧ move g s (VStr "B") = Normal s'
  ∧ Forall (λ p, parcel_place p ≠ VStr "A"
                 ∧ (parcel_place p ≠ VStr "B" → p ∈ parcels s)) (parcels s').
Proof.
  intros g s s'.
  assert (Hg : g !! to_key (place s) = Some [VStr "B"]) by (vm_compute; reflexivity).
  assert (Hd : VStr "B" ∈ [VStr "B"]) by apply list_elem_of_here.
  assert (Hne : VStr "B" ≠ place s) by discriminate.
  assert (Hm : move g s (VStr "B") = Normal s') by (vm_compute; reflexivity).
  split; [exact Hg|]. split; [exact Hd|]. split; [exact Hne|]. split; [exact Hm|].
  exact (move_takes_all_parcels g s s' (VStr "B") _ Hg Hd Hne Hm).
Defined.

(** In a graph built from descriptors that all contain the separator, the
    robot can always go back: after a legal move away from the place [a], the
    move to [a] is legal again and brings the robot to [a]. *)
Theorem move_back_is_legal (edges : list string) (g : graph) (a : string)
    (ps : list parcel) (d : value) (adjacent : list value) :
  Forall (λ r, (1 ≤ count_sep dash r)%nat) edges →
  buildGraph edges = Normal g →
  g !! a = Some adjacent → d ∈ adjacent →
  ∃ s' s'' back,
    move g (mkVillageState (VStr a) ps) d = Normal s' ∧ place s' = d
    ∧ g !! to_key d = Some back ∧ VStr a ∈ back
    ∧ move g s' (VStr a) = Normal s'' ∧ place s'' = VStr a.
Proof.
  intros Hsep [= <-] Ha Hd.
  assert (Hback : VStr a ∈ neighbours (build_loop edges ∅) (to_key d)).
  { rewrite <- (built_lookup_Some _ _ _ Ha) in Hd.
    destruct (built_two_way edges a d Hd) as ([a'|] & Hk & Hin);
      simpl in *; [by subst a'|].
    by destruct (built_no_undefined edges (to_key d) Hsep). }
  apply neighbours_elem in Hback as (back & Hb & Hin).
  eexists _, _, back.
  split; [by apply (move_legal _ (mkVillageState (VStr a) ps) d adjacent)|].
  split; [done|]. split; [done|]. split; [done|].
  split; [by apply (move_legal _ _ (VStr a) back)|done].
Qed.

Lemma move_back_is_legal_witness :
  let g := build_loop ["A-B"; "B-C"] ∅ in
  Forall (λ r, (1 ≤ count_sep dash r)%nat) ["A-B"; "B-C"]
  ∧ buildGraph ["A-B"; "B-C"] = Normal g
  ∧ g !! "B" = Some [VStr "A"; VStr "C"] ∧ VStr "C" ∈ [VStr "A"; VStr "C"]
  ∧ ∃ s' s'' back,
      move g (mkVillageState (VStr "B") [mkParcel (VStr "B") (VStr "A")]) (VStr "C")
      = Normal s' ∧ place s' = VStr "C"
      ∧ g !! "C" = Some back ∧ VStr "B" ∈ back
      ∧ move g s' (VStr "B") = Normal s'' ∧ place s'' = VStr "B".
Proof.
  intros g.
  assert (Hsep : Forall (λ r, (1 ≤ count_sep dash r)%nat) ["A-B"; "B-C"])
    by (repeat constructor; vm_compute; lia).
  assert (Hb : buildGraph ["A-B"; "B-C"] = Normal g) by reflexivity.
  assert (Hk : g !! "B" = Some [VStr "A"; VStr "C"]) by (vm_compute; reflexivity).
  assert (Hd : VStr "C" ∈ [VStr "A"; VStr "C"])
    by apply list_elem_of_further, list_elem_of_here.
  split; [exact Hsep|]. split; [exact Hb|]. split; [exact Hk|]. split; [exact Hd|].
  exact (move_back_is_legal _ g "B" _ (VStr "C") _ Hsep Hb Hk Hd).
Defined.

(** ** More on [runRobot] *)

Lemma directions_app {M} (t u : list (event M)) :
  directions (t ++ u) = directions t ++ directions u.
Proof.
  induction t as [|ev t IH]; simpl; [done|].
  destruct ev; simpl; by rewrite IH.
Qed.

Lemma run_loop_travel {M W} (g : graph) (robot : @strategy M W) fuel :
  ∀ turn state mem w trace t w',
    run_loop g robot fuel turn state mem w trace = Some (t, Normal w') →
    ∃ body final,
      t = trace ++ body
      ∧ travel g state (directions body) = Normal final
      ∧ parcels final = []
      ∧ ∀ ds1 ds2, directions body = ds1 ++ ds2 → ds2 ≠ [] →
          ∃ mid, travel g state ds1 = Normal mid ∧ parcels mid ≠ [].
Proof.
  induction fuel as [|fuel IH]; intros turn state mem w trace t w'; simpl; [done|].
  destruct (Nat.eqb (length (parcels state)) 0) eqn:E.
  - intros [= <- <-]. exists [Done turn], state. simpl.
    apply Nat.eqb_eq, length_zero_iff_nil in E. repeat split; [done|].
    intros ds1 ds2 Hds Hne. symmetry in Hds. by apply app_eq_nil in Hds as [_ ?].
  - apply Nat.eqb_neq in E.
    destruct (robot state mem w) as [[act w1]|e]; [|done].
    destruct (move g state (direction act)) as [state'|e] eqn:Hm; [|done].
    intros Hrun. apply IH in Hrun as (body & final & -> & Ht & Hf & Hpre).
    exists ([Called state mem; Moved (direction act)] ++ body), final.
    rewrite <- app_assoc. simpl. rewrite Hm. repeat split; [done..|].
    intros [|d ds1] ds2 Hds Hne; simpl in *.
    + exists state. split; [done|]. intros Hnil. by rewrite Hnil in E.
    + injection Hds as <- Hds. rewrite Hm. by apply (Hpre ds1 ds2).
Qed.

(** [runRobot] stops exactly when everything is delivered: when it reports
    that it is done, the moves it has printed lead from the initial state to
    a state without parcels, and to no such state before the last of them. *)
Theorem runRobot_stops_when_delivered {M W} (g : graph) (robot : @strategy M W)
    (fuel : nat) (state : VillageState) (mem : option M) (w w' : W)
    (t : list (event M)) :
  runRobot g fuel state robot mem w = Some (t, Normal w') →
  ∃ final,
    travel g state (directions t) = Normal final
    ∧ parcels final = []
    ∧ ∀ ds1 ds2, directions t = ds1 ++ ds2 → ds2 ≠ [] →
        ∃ mid, travel g state ds1 = Normal mid ∧ parcels mid ≠ [].
Proof.
  intros Hrun.
  apply run_loop_travel in Hrun as (body & final & -> & Ht & Hf & Hpre).
  by exists final.
Qed.

Lemma runRobot_stops_when_delivered_witness :
  let robot : @strategy unit nat :=
    λ state _ calls,
      Normal (mkAction (if Nat.even calls then VStr "Cabin" else VStr "Alice's House")
                None, S calls) in
  let t := [ Called first None; Moved (VStr "Cabin");
             Called first None; Moved (VStr "Alice's House"); Done 2 ] in
  runRobot roadGraph 5 first robot None 0 = Some (t, Normal 2)
  ∧ ∃ final,
      travel roadGraph first (directions t) = Normal final
      ∧ parcels final = []
      ∧ ∀ ds1 ds2, directions t = ds1 ++ ds2 → ds2 ≠ [] →
          ∃ mid, travel roadGraph first ds1 = Normal mid ∧ parcels mid ≠ [].
Proof.
  intros robot t.
  assert (Hrun : runRobot roadGraph 5 first robot None 0 = Some (t, Normal 2))
    by (vm_compute; reflexivity).
  split; [exact Hrun|].
  exact (runRobot_stops_when_delivered roadGraph robot 5 first None 0 2 t Hrun).
Defined.

Lemma run_loop_throw {M W} (g : graph) (robot : @strategy M W) fuel :
  ∀ turn state mem w trace t e,
    run_loop g robot fuel turn state mem w trace = Some (t, Throw e) →
    ∃ before stuck m,
      t = trace ++ before ++ [Called stuck m]
      ∧ travel g state (directions before) = Normal stuck
      ∧ parcels stuck ≠ []
      ∧ invocations before = moves_taken before
      ∧ Forall (λ ev, ∀ k, ev ≠ Done k) before.
Proof.
  induction fuel as [|fuel IH]; intros turn state mem w trace t e; simpl; [done|].
  destruct (Nat.eqb (length (parcels state)) 0) eqn:E; [done|].
  apply Nat.eqb_neq in E.
  assert (Hne : parcels state ≠ []) by (intros Hnil; by rewrite Hnil in E).
  destruct (robot state mem w) as [[act w1]|e1].
  - destruct (move g state (direction act)) as [state'|e2] eqn:Hm.
    + intros Hrun. apply IH in Hrun as (before & stuck & m & -> & Ht & Hp & Hc & Hd).
      exists ([Called state mem; Moved (direction act)] ++ before), stuck, m.
      rewrite invocations_app, moves_taken_app, Hc, <- !app_assoc. simpl.
      rewrite Hm. repeat split; try done. by repeat constructor.
    + intros [= <- <-]. exists [], state, mem. by repeat split.
  - intros [= <- <-]. exists [], state, mem. by repeat split.
Qed.

(** When a run ends because the strategy or [move] throws, nothing has been
    reported: the trace has no [Done] line; it ends with the strategy call
    of the failing turn, for the state that the printed moves lead to, which
    still has parcels; before it there is one call for each move printed. *)
Theorem runRobot_throw_trace {M W} (g : graph) (robot : @strategy M W)
    (fuel : nat) (state : VillageState) (mem : option M) (w : W)
    (t : list (event M)) (e : js_error) :
  runRobot g fuel state robot mem w = Some (t, Throw e) →
  ∃ before stuck m,
    t = before ++ [Called stuck m]
    ∧ travel g state (directions t) = Normal stuck
    ∧ parcels stuck ≠ []
    ∧ invocations t = S (moves_taken t)
    ∧ Forall (λ ev, ∀ k, ev ≠ Done k) t.
Proof.
  intros Hrun.
  apply run_loop_throw in Hrun as (before & stuck & m & -> & Ht & Hp & Hc & Hd).
  exists before, stuck, m. simpl.
  rewrite directions_app, invocations_app, moves_taken_app, Hc. simpl.
  rewrite app_nil_r. repeat split; try done.
  apply Forall_app. split; [done|]. by repeat constructor.
Qed.

Lemma runRobot_throw_trace_witness :
  let g := build_loop ["A-B"] ∅ in
  let state := mkVillageState (VStr "A") [mkParcel (VStr "C") (VStr "A")] in
  let robot : @strategy unit unit :=
    λ s _ w, if loose_eq (place s) (VStr "A")
             then Normal (mkAction (VStr "B") None, w) else Throw TypeError in
  let stuck := mkVillageState (VStr "B") [mkParcel (VStr "C") (VStr "A")] in
  let t := [Called state None; Moved (VStr "B"); Called stuck None] in
  runRobot g 9 state robot None tt = Some (t, Throw TypeError)
  ∧ ∃ before stuck m,
      t = before ++ [Called stuck m]
      ∧ travel g state (directions t) = Normal stuck
      ∧ parcels stuck ≠ []
      ∧ invocations t = S (moves_taken t)
      ∧ Forall (λ ev, ∀ k, ev ≠ Done k) t.
Proof.
  intros g state robot stuck t.
  assert (Hrun : runRobot g 9 state robot None tt = Some (t, Throw TypeError))
    by (vm_compute; reflexivity).
  split; [exact Hrun|].
  exact (runRobot_throw_trace g robot 9 state None tt t TypeError Hrun).
Defined.

Lemma run_loop_safe {M W} (edges : list string) (robot : @strategy M W) :
  (∀ s m w, is_Some (build_loop edges ∅ !! to_key (place s)) →
            ∃ a w', robot s m w = Normal (a, w')) →
  ∀ fuel turn state mem w trace t c,
    is_Some (build_loop edges ∅ !! to_key (place state)) →
    run_loop (build_loop edges ∅) robot fuel turn state mem w trace = Some (t, c) →
    ∃ w', c = Normal w'.
Proof.
  intros Hrobot. induction fuel as [|fuel IH];
    intros turn state mem w trace t c Hs; simpl; [done|].
  destruct (Nat.eqb (length (parcels state)) 0); [intros [= <- <-]; eauto|].
  destruct (Hrobot state mem w Hs) as (act & w1 & ->).
  destruct (move_is_Some _ state (direction act) Hs) as [state' Hm].
  rewrite Hm. apply IH. by eapply built_move_stays.
Qed.

(** In a graph that [buildGraph] returned, started at a place with an
    entry, [runRobot] throws only if the strategy does: with a strategy that
    returns an action at every place of the graph, a run that ends ends
    normally, with the report. *)
Theorem runRobot_throws_only_with_strategy {M W} (edges : list string)
    (g : graph) (robot : @strategy M W) (fuel : nat) (state : VillageState)
    (mem : option M) (w : W) (t : list (event M)) (c : completion W) :
  buildGraph edges = Normal g →
  is_Some (g !! to_key (place state)) →
  (∀ s m w, is_Some (g !! to_key (place s)) →
            ∃ a w', robot s m w = Normal (a, w')) →
  runRobot g fuel state robot mem w = Some (t, c) →
  ∃ w', c = Normal w'.
Proof.
  intros [= <-] Hs Hrobot Hrun.
  by eapply (run_loop_safe edges robot Hrobot) in Hrun.
Qed.

Lemma runRobot_throws_only_with_strategy_witness :
  let g := build_loop ["A-B"; "B-C"] ∅ in
  let state := mkVillageState (VStr "A") [mkParcel (VStr "A") (VStr "C")] in
  let robot : @strategy unit unit :=
    λ s _ w, Normal (mkAction (if loose_eq (place s) (VStr "A")
                               then VStr "B" else VStr "C") None, w) in
  let t := [ Called state None; Moved (VStr "B");
             Called (mkVillageState (VStr "B") [mkParcel (VStr "B") (VStr "C")]) None;
             Moved (VStr "C"); Done 2 ] in
  buildGraph ["A-B"; "B-C"] = Normal g
  ∧ is_Some (g !! to_key (place state))
  ∧ (∀ s m w, is_Some (g !! to_key (place s)) → ∃ a w', robot s m w = Normal (a, w'))
  ∧ runRobot g 4 state robot None tt = Some (t, Normal tt)
  ∧ ∃ w', Normal tt = Normal w'.
Proof.
  intros g state robot t.
  assert (Hb : buildGraph ["A-B"; "B-C"] = Normal g) by reflexivity.
  assert (Hs : is_Some (g !! to_key (place state)))
    by (exists [VStr "B"]; vm_compute; reflexivity).
  assert (Hrobot : ∀ s m w, is_Some (g !! to_key (place s)) →
                            ∃ a w', robot s m w = Normal (a, w'))
    by (intros s m w _; unfold robot; eauto).
  assert (Hrun : runRobot g 4 state robot None tt = Some (t, Normal tt))
    by (vm_compute; reflexivity).
  split; [exact Hb|]. split; [exact Hs|]. split; [exact Hrobot|].
  split; [exact Hrun|].
  exact (runRobot_throws_only_with_strategy _ g robot 4 state None tt t _
           Hb Hs Hrobot Hrun).
Defined.

(** ** More on [randomPick] and [randomRobot] *)

Lemma element_in_or_undefined array choice :
  element array choice ∈ array ∨ element array choice = VUndef.
Proof.
  destruct choice as [i|]; simpl; [|by right].
  destruct (array !! i) as [v|] eqn:E; simpl; [left|by right].
  by eapply list_elem_of_lookup_2.
Qed.

(** Whatever number is drawn: [randomPick] takes one number from
    [Math.random]; called on [undefined] it throws a [TypeError]; called on
    the empty array it returns [undefined]; called on any array it returns
    an element of the array or [undefined], nothing else. *)
Theorem randomPick_result (e : entropy) :
  randomPick None e = Throw TypeError
  ∧ randomPick (Some []) e = Normal (VUndef, λ n, e (S n))
  ∧ ∀ array, ∃ v, randomPick (Some array) e = Normal (v, λ n, e (S n))
                  ∧ (v ∈ array ∨ v = VUndef).
Proof.
  split; [reflexivity|]. split.
  - unfold randomPick. simpl. by destruct (floor_index _).
  - intros array. eexists. split; [reflexivity|]. apply element_in_or_undefined.
Qed.

Lemma randomRobot_is_Some {M} (g : graph) s (m : option M) e :
  is_Some (g !! to_key (place s)) →
  ∃ a e', randomRobot g s m e = Normal (a, e').
Proof. intros [l Hl]. unfold randomRobot, randomPick. rewrite Hl. simpl. eauto. Qed.

(** The program itself, [runRobot(state, randomRobot)], in a graph that
    [buildGraph] returned: started at a place with an entry it never throws,
    whatever numbers [Math.random] returns; whenever it ends, it ends with
    the report, after moves that have delivered every parcel. *)
Theorem runRobot_randomRobot_never_throws {M} (edges : list string) (g : graph)
    (fuel : nat) (state : VillageState) (mem : option M) (e : entropy)
    (t : list (event M)) (c : completion entropy) :
  buildGraph edges = Normal g →
  is_Some (g !! to_key (place state)) →
  runRobot g fuel state (randomRobot g) mem e = Some (t, c) →
  (∃ e', c = Normal e')
  ∧ ∃ final, travel g state (directions t) = Normal final ∧ parcels final = [].
Proof.
  intros [= <-] Hs Hrun.
  assert (∃ e', c = Normal e') as [e' ->].
  { eapply (run_loop_safe edges (randomRobot _)); [|exact Hs|exact Hrun].
    intros s m w. apply randomRobot_is_Some. }
  split; [eauto|].
  apply run_loop_travel in Hrun as (body & final & -> & Ht & Hf & _). eauto.
Qed.

Lemma runRobot_randomRobot_never_throws_witness :
  let e : entropy :=
    λ n, match n with 0 => 0.75%float | 1 => 0.25%float | _ => 0%float end in
  let at_market := mkVillageState (VStr "Marketplace")
                     [mkParcel (VStr "Marketplace") (VStr "Alice's House")] in
  let t : list (event unit) :=
    [ Called first None; Moved (VStr "Marketplace");
      Called at_market None; Moved (VStr "Post Office");
      Called first None; Moved (VStr "Alice's House"); Done 3 ] in
  let c : completion entropy := Normal (λ n, e (S (S (S n)))) in
  buildGraph roads = Normal roadGraph
  ∧ is_Some (roadGraph !! to_key (place first))
  ∧ runRobot roadGraph 10 first (randomRobot roadGraph) None e = Some (t, c)
  ∧ (∃ e', c = Normal e')
  ∧ ∃ final, travel roadGraph first (directions t) = Normal final
             ∧ parcels final = [].
Proof.
  intros e at_market t c.
  assert (Hb : buildGraph roads = Normal roadGraph)
    by (unfold buildGraph, roadGraph; reflexivity).
  assert (Hs : is_Some (roadGraph !! to_key (place first)))
    by (exists [VStr "Alice's House"; VStr "Marketplace"]; vm_compute; reflexivity).
  assert (Hrun : runRobot roadGraph 10 first (randomRobot roadGraph) None e
                 = Some (t, c)) by (vm_compute; reflexivity).
  split; [exact Hb|]. split; [exact Hs|]. split; [exact Hrun|].
  exact (runRobot_randomRobot_never_throws roads roadGraph 10 first None e t c
           Hb Hs Hrun).
Defined.

(** ** The run, turn by turn *)

Lemma moves_taken_turn {M} (s : VillageState) (m : option M) d t :
  moves_taken (Called s m :: Moved d :: t) = S (moves_taken t).
Proof. reflexivity. Qed.

Lemma run_loop_session {M W} (g : graph) (robot : @strategy M W) fuel :
  ∀ turn state mem w trace t w',
    run_loop g robot fuel turn state mem w trace = Some (t, Normal w') →
    ∃ body final m',
      t = trace ++ body ++ [Done (turn + moves_taken body)]
      ∧ session g robot state mem w body final m' w'
      ∧ parcels final = [].
Proof.
  induction fuel as [|fuel IH]; intros turn state mem w trace t w'; simpl; [done|].
  destruct (Nat.eqb (length (parcels state)) 0) eqn:E.
  - intros [= <- <-]. exists [], state, mem.
    apply Nat.eqb_eq, length_zero_iff_nil in E.
    rewrite Nat.add_0_r. repeat split; [constructor | done].
  - apply Nat.eqb_neq in E.
    assert (Hne : parcels state ≠ []) by (intros Hnil; by rewrite Hnil in E).
    destruct (robot state mem w) as [[act w1]|e] eqn:Hr; [|done].
    destruct (move g state (direction act)) as [state'|e] eqn:Hm; [|done].
    intros Hrun. apply IH in Hrun as (body & final & m' & -> & Hs & Hf).
    exists (Called state mem :: Moved (direction act) :: body), final, m'.
    rewrite moves_taken_turn, <- app_assoc, Nat.add_succ_r.
    split; [done|]. split; [|done]. by eapply session_turn.
Qed.

Lemma session_run_loop {M W} (g : graph) (robot : @strategy M W)
    state mem w body final m' w' :
  session g robot state mem w body final m' w' → parcels final = [] →
  ∀ fuel turn trace, moves_taken body < fuel →
    run_loop g robot fuel turn state mem w trace
    = Some (trace ++ body ++ [Done (turn + moves_taken body)], Normal w').
Proof.
  intros Hs Hf. induction Hs as [s m w|s m w a w1 s1 t s' m' w' Hne Hr Hm _ IH];
    intros [|fuel] turn trace Hfuel; try lia; simpl.
  - rewrite Hf. simpl. by rewrite Nat.add_0_r.
  - destruct (parcels s) as [|p ps] eqn:E; [done|]. simpl.
    rewrite Hr, Hm. rewrite moves_taken_turn in *.
    rewrite (IH Hf fuel (S turn)) by lia.
    by rewrite <- app_assoc, Nat.add_succ_r.
Qed.

Lemma session_facts {M W} (g : graph) (robot : @strategy M W)
    s m w body s' m' w' :
  session g robot s m w body s' m' w' →
  travel g s (directions body) = Normal s'
  ∧ length (directions body) = moves_taken body
  ∧ invocations body = moves_taken body
  ∧ Forall (λ ev, ∀ k, ev ≠ Done k) body.
Proof.
  induction 1 as [s m w|s m w a w1 s1 t s' m' w' Hne Hr Hm _ IH].
  - by repeat split.
  - destruct IH as (Ht & Hl & Hi & Hd). rewrite moves_taken_turn. simpl.
    rewrite Hm, Hl. repeat split; try done.
    + change (S (invocations t) = S (moves_taken t)). by rewrite Hi.
    + by repeat constructor.
Qed.

(** C6. Started on a state without parcels, [runRobot] prints that it is
    done in 0 turns and stops; it has not called the strategy (no call is in
    the trace, the world the strategy works on is untouched).  In general,
    when [runRobot] stops by itself, it has gone through a sequence of
    turns; each turn was taken in a state that had parcels, and consisted of
    one call of the strategy and one call of [move], in the direction of the
    strategy's answer, on the state left by the turn before; the state after
    the last turn is the first without parcels.  The turn reported is the
    number of these turns: the number of moves taken, of strategy calls and
    of move lines printed (a move to a place that is not adjacent leaves
    the state as it is and counts as a turn like any other). *)
Theorem runRobot_reports_turns {M W} (g : graph) (robot : @strategy M W) :
  (∀ fuel here mem w,
     runRobot g (S fuel) (mkVillageState here []) robot mem w
     = Some ([Done 0], Normal w))
  ∧ (∀ fuel state mem w t w',
       runRobot g fuel state robot mem w = Some (t, Normal w') →
       ∃ body final m' n,
         t = body ++ [Done n]
         ∧ session g robot state mem w body final m' w'
         ∧ parcels final = []
         ∧ travel g state (directions body) = Normal final
         ∧ length (directions body) = n
         ∧ moves_taken body = n ∧ invocations body = n
         ∧ Forall (λ ev, ∀ k, ev ≠ Done k) body).
Proof.
  split; [reflexivity|].
  intros fuel state mem w t w' Hrun.
  apply run_loop_session in Hrun as (body & final & m' & -> & Hs & Hf).
  destruct (session_facts _ _ _ _ _ _ _ _ _ Hs) as (Ht & Hl & Hi & Hd).
  by exists body, final, m', (moves_taken body).
Qed.

Lemma runRobot_reports_turns_witness :
  let robot : @strategy unit nat :=
    λ state _ calls,
      Normal (mkAction (if Nat.even calls then VStr "Cabin" else VStr "Alice's House")
                None, S calls) in
  let t := [ Called first None; Moved (VStr "Cabin");
             Called first None; Moved (VStr "Alice's House"); Done 2 ] in
  runRobot roadGraph 5 first robot None 0 = Some (t, Normal 2)
  ∧ ∃ body final m' n,
      t = body ++ [Done n]
      ∧ session roadGraph robot first None 0 body final m' 2
      ∧ parcels final = []
      ∧ travel roadGraph first (directions body) = Normal final
      ∧ length (directions body) = n
      ∧ moves_taken body = n ∧ invocations body = n
      ∧ Forall (λ ev, ∀ k, ev ≠ Done k) body.
Proof.
  intros robot t.
  assert (Hrun : runRobot roadGraph 5 first robot None 0 = Some (t, Normal 2))
    by (vm_compute; reflexivity).
  split; [exact Hrun|].
  exact (proj2 (runRobot_reports_turns roadGraph robot) 5 first None 0 t 2 Hrun).
Defined.

(** What a finished run has done: what [runRobot] has printed when it ends
    normally is a sequence of turns, each one the strategy's answer to the
    state, the memory and the world that the turn before has left, followed
    by the move in the answer's direction; the sequence ends in a state
    without parcels, and the number of its moves is reported. *)
Theorem runRobot_is_a_session {M W} (g : graph) (robot : @strategy M W)
    (fuel : nat) (state : VillageState) (mem : option M) (w w' : W)
    (t : list (event M)) :
  runRobot g fuel state robot mem w = Some (t, Normal w') →
  ∃ body final m',
    t = body ++ [Done (moves_taken body)]
    ∧ session g robot state mem w body final m' w'
    ∧ parcels final = [].
Proof.
  intros Hrun. apply run_loop_session in Hrun as (body & final & m' & -> & Hs & Hf).
  by exists body, final, m'.
Qed.

Lemma runRobot_is_a_session_witness :
  let robot : @strategy nat nat :=
    λ state m calls,
      Normal (mkAction (if Nat.even calls then VStr "Cabin" else VStr "Alice's House")
                (Some (S (default 0 m))), S calls) in
  let t := [ Called first None; Moved (VStr "Cabin");
             Called first (Some 1); Moved (VStr "Alice's House"); Done 2 ] in
  runRobot roadGraph 5 first robot None 0 = Some (t, Normal 2)
  ∧ ∃ body final m',
      t = body ++ [Done (moves_taken body)]
      ∧ session roadGraph robot first None 0 body final m' 2
      ∧ parcels final = [].
Proof.
  intros robot t.
  assert (Hrun : runRobot roadGraph 5 first robot None 0 = Some (t, Normal 2))
    by (vm_compute; reflexivity).
  split; [exact Hrun|].
  exact (runRobot_is_a_session roadGraph robot 5 first None 0 2 t Hrun).
Defined.

(** Conversely, a run is not cut short: when the turns of the strategy lead
    to a state without parcels, [runRobot] takes exactly these turns and
    reports their number, as soon as it is allowed more iterations than
    there are turns. *)
Theorem runRobot_completes_session {M W} (g : graph) (robot : @strategy M W)
    (fuel : nat) (state final : VillageState) (mem m' : option M) (w w' : W)
    (body : list (event M)) :
  session g robot state mem w body final m' w' → parcels final = [] →
  moves_taken body < fuel →
  runRobot g fuel state robot mem w
  = Some (body ++ [Done (moves_taken body)], Normal w').
Proof.
  intros Hs Hf Hfuel. unfold runRobot.
  by rewrite (session_run_loop g robot _ _ _ _ _ _ _ Hs Hf fuel 0 []).
Qed.

Lemma runRobot_completes_session_witness :
  let g := build_loop ["A-B"; "B-C"] ∅ in
  let robot : @strategy unit unit :=
    λ s _ w, Normal (mkAction (if loose_eq (place s) (VStr "A")
                               then VStr "B" else VStr "C") None, w) in
  let s0 := mkVillageState (VStr "A") [mkParcel (VStr "A") (VStr "C")] in
  let s1 := mkVillageState (VStr "B") [mkParcel (VStr "B") (VStr "C")] in
  let s2 := mkVillageState (VStr "C") [] in
  let body := [ Called s0 None; Moved (VStr "B"); Called s1 None; Moved (VStr "C") ] in
  session g robot s0 None tt body s2 None tt ∧ parcels s2 = []
  ∧ moves_taken body < 3
  ∧ runRobot g 3 s0 robot None tt = Some (body ++ [Done 2], Normal tt).
Proof.
  intros g robot s0 s1 s2 body.
  assert (Hs : session g robot s0 None tt body s2 None tt).
  { apply (session_turn g robot s0 None tt (mkAction (VStr "B") None) tt s1);
      [discriminate | reflexivity | vm_compute; reflexivity |].
    apply (session_turn g robot s1 None tt (mkAction (VStr "C") None) tt s2);
      [discriminate | reflexivity | vm_compute; reflexivity |].
    apply session_end. }
  assert (Hf : parcels s2 = []) by reflexivity.
  assert (Hfuel : moves_taken body < 3) by (vm_compute; lia).
  split; [exact Hs|]. split; [exact Hf|]. split; [exact Hfuel|].
  exact (runRobot_completes_session g robot 3 s0 s2 None None tt tt body Hs Hf Hfuel).
Defined.

(** ** The random robot's draws *)

Lemma run_loop_random_draws {M} (g : graph) fuel :
  ∀ turn state (mem : option M) (e : entropy) trace t (e' : entropy),
    run_loop g (randomRobot g) fuel turn state mem e trace = Some (t, Normal e') →
    ∃ body, t = trace ++ body ∧ ∀ n, e' n = e (moves_taken body + n).
Proof.
  induction fuel as [|fuel IH]; intros turn state mem e trace t e'; simpl; [done|].
  destruct (Nat.eqb (length (parcels state)) 0).
  - intros [= <- <-]. by exists [Done turn].
  - unfold randomRobot at 1. unfold randomPick, Math_random.
    destruct (g !! to_key (place state)) as [l|]; [|done]. simpl.
    destruct (move g state _) as [state'|err]; [|done].
    intros Hrun. apply IH in Hrun as (body & -> & He).
    eexists (_ :: _ :: body). rewrite <- app_assoc. split; [reflexivity|].
    intros n. by rewrite He, moves_taken_turn.
Qed.

(** A run of the random robot calls [Math.random] once for each move, and
    never otherwise: after a run that has ended normally, the numbers still
    to come are those that were to come at the start, less one for each
    move made. *)
Theorem randomRobot_one_draw_per_move {M} (g : graph) (fuel : nat)
    (state : VillageState) (mem : option M) (e e' : entropy)
    (t : list (event M)) :
  runRobot g fuel state (randomRobot g) mem e = Some (t, Normal e') →
  ∀ n, e' n = e (moves_taken t + n).
Proof.
  intros Hrun. by apply run_loop_random_draws in Hrun as (body & -> & He).
Qed.

Lemma randomRobot_one_draw_per_move_witness :
  let e : entropy :=
    λ n, match n with 0 => 0.75%float | 1 => 0.25%float | _ => 0%float end in
  let at_market := mkVillageState (VStr "Marketplace")
                     [mkParcel (VStr "Marketplace") (VStr "Alice's House")] in
  let t : list (event unit) :=
    [ Called first None; Moved (VStr "Marketplace");
      Called at_market None; Moved (VStr "Post Office");
      Called first None; Moved (VStr "Alice's House"); Done 3 ] in
  let e' : entropy := λ n, e (S (S (S n))) in
  runRobot roadGraph 10 first (randomRobot roadGraph) None e = Some (t, Normal e')
  ∧ ∀ n, e' n = e (3 + n).
Proof.
  intros e at_market t e'.
  assert (Hrun : runRobot roadGraph 10 first (randomRobot roadGraph) None e
                 = Some (t, Normal e')) by (vm_compute; reflexivity).
  split; [exact Hrun|].
  exact (randomRobot_one_draw_per_move roadGraph 10 first None e e' t Hrun).
Defined.

(** ** Directions that are not on the map *)

(** In a graph built from descriptors that all contain the separator,
    [undefined] is in no neighbour list, so a move to [undefined] (what
    [randomPick] returns when it picks nothing) from a place with an entry
    returns the state as it is. *)
Theorem move_to_undefined_is_noop (edges : list string) (g : graph)
    (s : VillageState) :
  Forall (λ r, (1 ≤ count_sep dash r)%nat) edges →
  buildGraph edges = Normal g →
  is_Some (g !! to_key (place s)) →
  move g s VUndef = Normal s.
Proof.
  intros Hsep [= <-] [l Hl]. apply (move_illegal _ s VUndef l Hl).
  rewrite <- (built_lookup_Some _ _ _ Hl). by apply built_no_undefined.
Qed.

Lemma move_to_undefined_is_noop_witness :
  Forall (λ r, (1 ≤ count_sep dash r)%nat) roads
  ∧ buildGraph roads = Normal roadGraph
  ∧ is_Some (roadGraph !! to_key (place first))
  ∧ move roadGraph first VUndef = Normal first.
Proof.
  assert (Hsep : Forall (λ r, (1 ≤ count_sep dash r)%nat) roads)
    by (repeat constructor; vm_compute; lia).
  assert (Hb : buildGraph roads = Normal roadGraph)
    by (unfold buildGraph, roadGraph; reflexivity).
  assert (Hs : is_Some (roadGraph !! to_key (place first)))
    by (exists [VStr "Alice's House"; VStr "Marketplace"]; vm_compute; reflexivity).
  split; [exact Hsep|]. split; [exact Hb|]. split; [exact Hs|].
  exact (move_to_undefined_is_noop roads roadGraph first Hsep Hb Hs).
Defined.

(** ** Edge lists in pieces *)

(** Building the graph of two edge lists, one after the other, gives for
    every key the neighbour list of the first graph followed by that of the
    second. *)
Theorem buildGraph_append (edges1 edges2 : list string) (k : string) :
  ∃ g1 g2 g,
    buildGraph edges1 = Normal g1 ∧ buildGraph edges2 = Normal g2
    ∧ buildGraph (edges1 ++ edges2) = Normal g
    ∧ neighbours g k = neighbours g1 k ++ neighbours g2 k.
Proof.
  exists (build_loop edges1 ∅), (build_loop edges2 ∅), (build_loop (edges1 ++ edges2) ∅).
  repeat split. by rewrite !neighbours_built, flat_map_app.
Qed.

(** The example in the documentation of [buildGraph]. *)
Example buildGraph_documented_example :
  buildGraph ["A-B"; "A-C"; "B-D"; "C-D"]
  = Normal (<["A" := [VStr "B"; VStr "C"]]>
            (<["B" := [VStr "A"; VStr "D"]]>
             (<["C" := [VStr "A"; VStr "D"]]>
              (<["D" := [VStr "B"; VStr "C"]]> ∅)))).
Proof. vm_compute. reflexivity. Qed.
